(** * rapportBuildr: the route handler [GET /api/zip/{zip}]

    A shallow embedding of the route handler and of the functions it is
    built from, followed by the properties of the specification that were
    checked against it.

    Conventions of the embedding.
    - A JavaScript string is the list of its UTF-16 code units ([list N]);
      [.length], [slice], [indexOf] and [split] count code units, as in the
      source.  [js "..."] writes an ASCII literal.
    - What the engine provides and the source only calls is a parameter of
      the development ([JsRuntime]): Unicode lower-casing and the
      floating-point arithmetic of the distance computation.
    - A promise that has been awaited is its outcome ([result]): [Ok] for a
      fulfilled promise, [Throw] for a rejected one or a thrown [Error],
      carrying the message.
    - The four upstream services are an oracle ([World]); every function that
      reaches the network returns, next to its value, the list of upstream
      calls it issued. *)

From Stdlib Require Import ZArith NArith List String Ascii Lia.
From Stdlib Require Import DecimalString.
From stdpp Require Import base option list gmap sets.

Open Scope N_scope.
Open Scope nat_scope.

(** ** JavaScript strings *)

Abbreviation jsstring := (list N).

Definition js (s : string) : jsstring :=
  (λ a, N_of_ascii a) <$> list_ascii_of_string s.

(** [String(n)] for a non-negative integer. *)
Definition js_of_N (n : N) : jsstring :=
  js (NilZero.string_of_uint (N.to_uint n)).

(** The code units matched by [\s] and stripped by [trim()]: ECMAScript
    WhiteSpace and LineTerminator. *)
Definition is_space (c : N) : bool :=
  ((9 <=? c) && (c <=? 13) || (c =? 32) || (c =? 160) || (c =? 5760)
   || (8192 <=? c) && (c <=? 8202) || (c =? 8232) || (c =? 8233)
   || (c =? 8239) || (c =? 8287) || (c =? 12288) || (c =? 65279))%N.

Fixpoint trimStart (s : jsstring) : jsstring :=
  match s with
  | c :: rest => if is_space c then trimStart rest else s
  | [] => []
  end.

Definition trimEnd (s : jsstring) : jsstring :=
  reverse (trimStart (reverse s)).

Definition trim (s : jsstring) : jsstring := trimEnd (trimStart s).

(** [s.replace(/\s+/g, " ")]: every maximal run of white space becomes one
    space; [in_run] tells that the previous code unit was white space. *)
Fixpoint collapse_spaces (in_run : bool) (s : jsstring) : jsstring :=
  match s with
  | [] => []
  | c :: rest =>
      if is_space c
      then (if in_run then collapse_spaces true rest
            else 32%N :: collapse_spaces true rest)
      else c :: collapse_spaces false rest
  end.

(** [s.startsWith(p)] *)
Fixpoint startsWith (p s : jsstring) : bool :=
  match p, s with
  | [], _ => true
  | a :: p', b :: s' => (a =? b)%N && startsWith p' s'
  | _ :: _, [] => false
  end.

(** [s.includes(p)] *)
Fixpoint includes (p s : jsstring) : bool :=
  startsWith p s ||
  match s with
  | [] => false
  | _ :: s' => includes p s'
  end.

(** [s.indexOf(c)] for a one-unit pattern; [None] stands for [-1]. *)
Fixpoint indexOf (c : N) (s : jsstring) : option nat :=
  match s with
  | [] => None
  | d :: rest => if (d =? c)%N then Some 0 else S <$> indexOf c rest
  end.

(** [s.split(c)] for a one-unit separator: always at least one field. *)
Fixpoint split (c : N) (s : jsstring) : list jsstring :=
  match s with
  | [] => [[]]
  | d :: rest =>
      if (d =? c)%N then [] :: split c rest
      else match split c rest with
           | f :: fs => (d :: f) :: fs
           | [] => [[d]]
           end
  end.

(** [fields.join(sep)] *)
Fixpoint join (sep : jsstring) (fields : list jsstring) : jsstring :=
  match fields with
  | [] => []
  | [f] => f
  | f :: fs => f ++ sep ++ join sep fs
  end.

(** [s.split(/\r?\n/)] *)
Fixpoint split_lines (s : jsstring) : list jsstring :=
  match s with
  | [] => [[]]
  | 10%N :: rest => [] :: split_lines rest
  | 13%N :: ((10%N :: _) as rest) => split_lines rest
  | d :: rest =>
      match split_lines rest with
      | f :: fs => (d :: f) :: fs
      | [] => [[d]]
      end
  end.

(** Truthiness of an optional string property: present and not empty. *)
Definition truthy (o : option jsstring) : option jsstring :=
  match o with
  | Some ((_ :: _) as s) => Some s
  | _ => None
  end.

(** ** What the engine provides *)

(** Lower-casing of the Basic Latin letters. *)
Definition ascii_lower (c : N) : N :=
  if ((65 <=? c) && (c <=? 90))%N then (c + 32)%N else c.

Definition basic_latin_text (s : jsstring) : Prop :=
  Forall (λ c, (c < 128)%N) s.

Class JsRuntime := {
  (** [String.prototype.toLowerCase] *)
  toLowerCase : jsstring → jsstring;
  (** on Basic Latin text it lower-cases letter by letter *)
  toLowerCase_ascii :
    ∀ s, basic_latin_text s → toLowerCase s = ascii_lower <$> s;
  (** IEEE-754 doubles *)
  number : Type;
  (** [Math.round(haversineMiles(lat1, lon1, lat2, lon2) * 10) / 10] *)
  rounded_miles : number → number → number → number → number;
  (** [String(x)] for a double *)
  js_of_number : number → jsstring;
}.

(** ** Outcomes *)

Inductive result (A : Type) : Type :=
| Ok (a : A)
| Throw (message : jsstring).
Arguments Ok {A} a.
Arguments Throw {A} message.

(** The reply of an upstream service to one [fetch]: the request fails
    (network error, abort by the 8 s or 45 s timer of [fetchWithTimeout]) or
    an HTTP response arrives. *)
Inductive fetch_outcome (B : Type) : Type :=
| NetworkError (message : jsstring)
| HttpReply (status : N) (body : B).
Arguments NetworkError {B} message.
Arguments HttpReply {B} status body.

(** [response.ok] *)
Definition status_ok (status : N) : bool :=
  ((200 <=? status) && (status <=? 299))%N.

(** ** mapWithConcurrency

    The workers of [mapWithConcurrency] share [cursor] and [results].  A
    worker is either suspended at [await mapper(items[index], index)]
    ([Some index]) or has left its loop ([None]).  Between two suspensions a
    worker runs without interruption, so an execution is the sequence of
    choices of which outstanding invocation settles next. *)

Record pool (R : Type) : Type := Pool {
  cursor : nat;
  results : list (option R);
  workers : list (option nat);
  rejection : option jsstring;
}.
Arguments Pool {R} cursor results workers rejection.
Arguments cursor {R} p.
Arguments results {R} p.
Arguments workers {R} p.
Arguments rejection {R} p.

Section MapWithConcurrency.
Context {T R : Type}.
Variable items : list T.
Variable mapper : T → nat → result R.

(** [const index = cursor; cursor += 1; if (index >= items.length) break;]
    and then the call of the mapper. *)
Definition take_next (c : nat) : option nat :=
  if decide (c < length items) then Some c else None.

(** [worker()]: the new worker runs up to its first [await]. *)
Definition spawn (p : pool R) : pool R :=
  Pool (S (cursor p)) (results p)
       (workers p ++ [take_next (cursor p)]) (rejection p).

(** [new Array(items.length)], [cursor = 0], then
    [Array.from({ length: workerCount }, () => worker())]. *)
Definition start (workerCount : nat) : pool R :=
  Nat.iter workerCount spawn (Pool 0 (replicate (length items) None) [] None).

(** The suspended workers: position of the worker, index it waits for. *)
Fixpoint awaiting_from (w : nat) (ws : list (option nat)) : list (nat * nat) :=
  match ws with
  | [] => []
  | Some index :: rest => (w, index) :: awaiting_from (S w) rest
  | None :: rest => awaiting_from (S w) rest
  end.

Definition awaiting (ws : list (option nat)) : list (nat * nat) :=
  awaiting_from 0 ws.

Definition outstanding (p : pool R) : nat := length (awaiting (workers p)).

(** The invocation of worker [w] for [index] settles.  Fulfilled:
    [results[index] = value] and the loop goes round once more.  Rejected:
    the worker's promise rejects, and [Promise.all] with it unless it
    already has. *)
Definition settle (w index : nat) (p : pool R) : pool R :=
  match items !! index with
  | None => p
  | Some x =>
      match mapper x index with
      | Ok r =>
          Pool (S (cursor p)) (<[index := Some r]> (results p))
               (<[w := take_next (cursor p)]> (workers p)) (rejection p)
      | Throw e =>
          Pool (cursor p) (results p) (<[w := None]> (workers p))
               (Some (default e (rejection p)))
      end
  end.

(** One step: the invocation selected by [choice] among the outstanding
    ones settles. *)
Definition resume (p : pool R) (choice : nat) : pool R :=
  match awaiting (workers p) with
  | [] => p
  | (a :: _) as outs =>
      let '(w, index) := nth (choice mod length outs) outs a in
      settle w index p
  end.

Definition run (schedule : list nat) (p : pool R) : pool R :=
  foldl resume p schedule.

(** The promise returned by [mapWithConcurrency], observed in pool [p]:
    rejected as soon as one worker rejected, fulfilled with [results] when
    every worker has left its loop, pending ([None]) otherwise. *)
Definition outcome (p : pool R) : option (result (list (option R))) :=
  match rejection p with
  | Some e => Some (Throw e)
  | None =>
      if forallb (λ o, bool_decide (o = None)) (workers p)
      then Some (Ok (results p))
      else None
  end.

Definition mapWithConcurrency (schedule : list nat) (limit : nat)
  : option (result (list (option R))) :=
  match items with
  | [] => Some (Ok [])
  | _ :: _ => outcome (run schedule (start (Nat.min limit (length items))))
  end.

(** The run in which the oldest outstanding invocation always settles
    first, long enough for every item. *)
Definition mapWithConcurrency_inorder (limit : nat)
  : option (result (list (option R))) :=
  mapWithConcurrency (replicate (length items) 0) limit.
End MapWithConcurrency.

(** The pools met along a run in which every invocation fulfils, [rs]
    being the values the invocations fulfil with and [n] the number of
    workers: the invariant behind the order of the results. *)
Record good_pool {T R : Type} (items : list T) (rs : list R) (n : nat)
    (p : pool R) : Prop := {
  good_rejection : rejection p = None;
  good_length : length (results p) = length items;
  good_filled : ∀ i r, results p !! i = Some (Some r) → rs !! i = Some r;
  good_hole : ∀ i, i < length items → i < cursor p →
                   results p !! i = Some None →
                   ∃ w, workers p !! w = Some (Some i);
  good_index : ∀ w i, workers p !! w = Some (Some i) → i < length items;
  good_count : outstanding p + Nat.max (cursor p) (length items)
               = n + length items;
}.

(** A promise as seen by its consumer: settled with an outcome, or
    pending for ever ([None]). *)
Definition promise (A : Type) : Type := option (result A).

(** ** Data model *)

(** The DuckDuckGo instant-answer payload, with the fields the source reads
    at the types [DuckDuckGoResponse] declares.  An absent property is
    [None]. *)
Record InfoboxItem := {
  label : option jsstring;
  value : option jsstring;
}.

Inductive RelatedTopic :=
| TopicNull                                   (* a falsy entry *)
| TopicText (Text : jsstring)                 (* a string [Text] *)
| TopicGroup (Topics : list (option jsstring)) (* an array [Topics]; the [Text] of each nested entry *)
| TopicOther.

Record DuckDuckGoResponse := {
  Heading : option jsstring;
  AbstractText : option jsstring;
  Abstract : option jsstring;
  Answer : option jsstring;
  Infobox_content : option (list (option InfoboxItem));
  RelatedTopics : option (list RelatedTopic);
}.

(** What [response.text()] and [JSON.parse] make of a DuckDuckGo reply. *)
Inductive ddg_body :=
| DdgUnreadable                     (* [response.text()] rejects *)
| DdgEmpty                          (* the text is empty *)
| DdgNotJson                        (* [JSON.parse] throws *)
| DdgNull                           (* the text is the JSON [null] *)
| DdgData (data : DuckDuckGoResponse).

Inductive ContextBucketKey :=
| state_identity | state_trends | seasonal_rhythms | community_traditions
| iconic_destinations | outdoor_showstoppers | neighborhood_archetypes
| home_projects | economic_momentum | population_growth
| desirability_factors | sports_heat | food_and_drink | civic_culture
| housing_signals | life_stage_notes | positive_news | emotional_connectors.

Definition all_bucket_keys : list ContextBucketKey :=
  [state_identity; state_trends; seasonal_rhythms; community_traditions;
   iconic_destinations; outdoor_showstoppers; neighborhood_archetypes;
   home_projects; economic_momentum; population_growth;
   desirability_factors; sports_heat; food_and_drink; civic_culture;
   housing_signals; life_stage_notes; positive_news; emotional_connectors].

Global Instance ContextBucketKey_eq_dec : EqDecision ContextBucketKey.
Proof. solve_decision. Defined.

Definition bucket_key_index (k : ContextBucketKey) : nat :=
  match k with
  | state_identity => 0 | state_trends => 1 | seasonal_rhythms => 2
  | community_traditions => 3 | iconic_destinations => 4
  | outdoor_showstoppers => 5 | neighborhood_archetypes => 6
  | home_projects => 7 | economic_momentum => 8 | population_growth => 9
  | desirability_factors => 10 | sports_heat => 11 | food_and_drink => 12
  | civic_culture => 13 | housing_signals => 14 | life_stage_notes => 15
  | positive_news => 16 | emotional_connectors => 17
  end.

Global Program Instance ContextBucketKey_countable : Countable ContextBucketKey :=
  inj_countable bucket_key_index (λ n, all_bucket_keys !! n) _.
Next Obligation. by intros []. Qed.

(** [StrategicContextBuckets]: an object whose properties are the bucket
    keys, and [city_snapshot]. *)
Record StrategicContextBuckets := {
  buckets : gmap ContextBucketKey (list jsstring);
  city_snapshot : option jsstring;
}.

(** An entry of [STRATEGIC_QUERIES].  The text of a template reaches the
    program only as the query it is filled into, so a template is named by
    its position in the entry. *)
Record StrategicQueryConfig := {
  key : ContextBucketKey;
  templates : list nat;
  limit : option nat;
}.

Record GrokAnchor := {
  anchor_category : jsstring;
  anchor_name : jsstring;
  anchor_summary : jsstring;
}.

(** [KnowledgeBrief]: the own properties of the object. *)
Abbreviation KnowledgeBrief := (gmap (list N) (list (list N))).

Record GrokSynthesis := {
  knowledge : KnowledgeBrief;
  anchors : list GrokAnchor;
}.

Record RapportSummary := {
  local_lifestyle_hook : jsstring;
  equity_or_payment_hook : jsstring;
  intent_probe : jsstring;
}.

(** The Zippopotam payload: [places] is [Some] when [data?.places] is an
    array; an entry of it is [None] when falsy. *)
Record ZipPlace := {
  place_name : option jsstring;
  state_abbreviation : option jsstring;
  state_name : option jsstring;
}.

Section WithRuntime.
Context `{JsRuntime}.

Record ZipPlaceEntry := {
  zip_place : ZipPlace;
  (** [parseFloat] of the field, when finite *)
  zip_latitude : option number;
  zip_longitude : option number;
}.

Record ZipData := {
  post_code : option jsstring;
  places : option (list (option ZipPlaceEntry));
}.

Inductive zip_body :=
| ZipNotJson (message : jsstring)          (* [res.json()] rejects *)
| ZipJson (data : ZipData).

(** The value [lookupZip] resolves to when it is not [null]. *)
Record GeoResult := {
  zip : jsstring;
  city : jsstring;
  state : jsstring;
  latitude : option number;
  longitude : option number;
}.

Record LocalPlace := {
  name : jsstring;
  category : option jsstring;
  distance_miles : option number;
  url : option jsstring;
  summary : option jsstring;
}.

(** One record of a Nominatim reply. *)
Record OsmItem := {
  display_name : option jsstring;          (* [Some] when it is a string *)
  lat : option number;                     (* [parseFloat], when finite *)
  lon : option number;
  wikipedia : option jsstring;
  website : option jsstring;
}.

Inductive osm_body :=
| OsmNotJson                               (* [response.json()] rejects *)
| OsmNotIterable                           (* JSON that [for ... of] cannot walk *)
| OsmArray (items : list OsmItem).

Record GrokContext := {
  location : jsstring * jsstring * jsstring * option (number * number);
  strategic_context : StrategicContextBuckets;
  anchor_spots : list LocalPlace;
}.

(** A chat-completion reply: the text of the body (for the error preview)
    and what [response.json()] gives, down to
    [choices[0].message.content] when that is a string. *)
Record grok_body := {
  body_text : option jsstring;
  body_json : result (option jsstring);
}.

Record ZipRapportResponse := {
  payload_zip : jsstring;
  payload_city : jsstring;
  payload_state : jsstring;
  summary_card : RapportSummary;
  knowledge_brief : KnowledgeBrief;
  grok_anchors : list GrokAnchor;
  raw_strategic_context : StrategicContextBuckets;
  raw_local_places : list LocalPlace;
}.

(** *** The upstream world *)

(** The questions put to DuckDuckGo: a template of a bucket filled with
    city, state and ZIP, and the two highlight queries of
    [enrichLocalPlaces]. *)
Inductive ddg_query :=
| StrategicQuery (bucket : ContextBucketKey) (template : nat)
                 (city state zip : jsstring)
| WhyLocalsLove (place city state : jsstring)
| PopularActivities (place city state : jsstring).

Inductive upstream_call :=
| CallZippopotam (zip : jsstring)
| CallDuckDuckGo (query : ddg_query)
| CallNominatim (query : jsstring)
| CallGrok (context : GrokContext).

(** The four stretches of [GET] during which the handler is suspended. *)
Inductive stage := GeoResolve | Fetch | Enrich | Synthesize.

Record World := {
  zippopotam : jsstring → fetch_outcome zip_body;
  duckduckgo : ddg_query → fetch_outcome ddg_body;
  (** query, latitude, longitude, limit *)
  nominatim : jsstring → number → number → nat → fetch_outcome osm_body;
  grok : GrokContext → fetch_outcome grok_body;
  (** whether the timer of a [withTimeout] fires before its promise
      settles *)
  geo_deadline_fires : bool;
  strategic_deadline_fires : bool;
  places_deadline_fires : bool;
  (** milliseconds that pass while the handler waits *)
  elapsed : stage → Z;
  (** the environment: an unset variable is the empty string, and
      [Number(process.env.CACHE_TTL_SECONDS)] is [0] when it is unset or
      not a number *)
  GROK_API_KEY : jsstring;
  grokApiUrl : jsstring;
  grokApiUrl_parses : bool;
  CACHE_TTL_SECONDS : Z;
}.

(** A value together with the upstream calls issued to compute it. *)
Definition traced (A : Type) : Type := A * list upstream_call.

Definition ret {A} (a : A) : traced A := (a, []).

Definition bind {A B} (m : traced A) (k : A → traced B) : traced B :=
  let '(b, calls) := k m.1 in (b, m.2 ++ calls).

Definition call (c : upstream_call) : traced unit := (tt, [c]).

(** [Promise.all] over independent traced computations. *)
Fixpoint sequence {A} (ms : list (traced A)) : traced (list A) :=
  match ms with
  | [] => ret []
  | m :: rest => bind m (λ a, bind (sequence rest) (λ l, ret (a :: l)))
  end.
End WithRuntime.

Notation "'let*' x := m 'in' k" := (bind m (λ x, k))
  (at level 10, x pattern, m at level 100, k at level 200, only parsing).

(** ** Snippet Source *)

Definition normalizeBlurb (text : jsstring) : jsstring :=
  trim (collapse_spaces false text).

(** Text that [normalizeBlurb] leaves as it is. *)
Definition whitespace_normalized (s : jsstring) : Prop := normalizeBlurb s = s.

(** The white space of [s] is made of single spaces, none of them first
    when [after_space] is set. *)
Fixpoint collapsed (after_space : bool) (s : jsstring) : bool :=
  match s with
  | [] => true
  | c :: rest =>
      if is_space c
      then (c =? 32)%N && negb after_space && collapsed true rest
      else collapsed false rest
  end.

(** Neither the first nor the last code unit is white space. *)
Definition trimmed_text (s : jsstring) : Prop :=
  (∀ c, head s = Some c → is_space c = false)
  ∧ (∀ c, last s = Some c → is_space c = false).

Definition blurb_of (text : jsstring) : list jsstring :=
  match normalizeBlurb text with
  | [] => []
  | blurb => [blurb]
  end.

Definition extractRelatedTopics (raw : DuckDuckGoResponse) : list jsstring :=
  concat
    ((λ item,
       match item with
       | TopicNull => []
       | TopicText text => blurb_of text
       | TopicGroup nested =>
           concat ((λ entry, match truthy entry with
                             | Some text => blurb_of text
                             | None => []
                             end) <$> nested)
       | TopicOther => []
       end) <$> default [] (RelatedTopics raw)).

(** The character […] *)
Definition ellipsis : N := 8230%N.

(** [/[.!?]$/.test(s)] *)
Definition ends_sentence (s : jsstring) : bool :=
  match last s with
  | Some c => ((c =? 46) || (c =? 33) || (c =? 63))%N
  | None => false
  end.

Definition ensureSentence (text : jsstring) : jsstring :=
  let trimmed := normalizeBlurb text in
  match trimmed with
  | [] => []
  | _ :: _ =>
      let clipped :=
        if decide (220 < length trimmed)
        then trim (take 217 trimmed) ++ [ellipsis]
        else trimmed in
      if ends_sentence clipped then clipped else clipped ++ [46%N]
  end.

Definition optional_candidate (o : option jsstring) : list jsstring :=
  match truthy o with
  | Some s => [s]
  | None => []
  end.

Definition infobox_candidates (data : DuckDuckGoResponse) : list jsstring :=
  match Infobox_content data with
  | Some ((_ :: _) as content) =>
      concat
        ((λ item,
           match item with
           | Some it =>
               match truthy (value it) with
               | Some v =>
                   [match truthy (label it) with
                    | Some l => l ++ js ": "
                    | None => []
                    end ++ v]
               | None => []
               end
           | None => []
           end) <$> content)
  | _ => []
  end.

(** The candidate list, in the order the source pushes it. *)
Definition candidates_of (data : DuckDuckGoResponse) : list jsstring :=
  optional_candidate (Heading data) ++ optional_candidate (AbstractText data)
  ++ optional_candidate (Abstract data) ++ optional_candidate (Answer data)
  ++ infobox_candidates data ++ extractRelatedTopics data.

Section Pipeline.
Context `{JsRuntime}.
Variable w : World.

(** The loop over [candidates] of [queryDuckDuckGoSnippets]. *)
Fixpoint collect_snippets (limit : nat) (candidates : list jsstring)
    (seen : gset (list N)) (snippets : list jsstring) : list jsstring :=
  match candidates with
  | [] => snippets
  | candidate :: rest =>
      match ensureSentence candidate with
      | [] => collect_snippets limit rest seen snippets
      | sentence =>
          let key := toLowerCase sentence in
          if decide (key ∈ seen) then collect_snippets limit rest seen snippets
          else
            let snippets' := snippets ++ [sentence] in
            if decide (limit ≤ length snippets') then snippets'
            else collect_snippets limit rest ({[key]} ∪ seen) snippets'
      end
  end.

(** A search call that brings nothing: transport error, non-success
    status, or a body that is not a JSON object. *)
Definition failed_search (reply : fetch_outcome ddg_body) : Prop :=
  match reply with
  | HttpReply status (DdgData _) => status_ok status = false
  | _ => True
  end.

(** The body of the outer [try] of [queryDuckDuckGoSnippets]. *)
Definition snippets_of_reply (reply : fetch_outcome ddg_body) (limit : nat)
  : result (list jsstring) :=
  match reply with
  | NetworkError message => Throw message
  | HttpReply status body =>
      if negb (status_ok status) then Ok []
      else match body with
           | DdgUnreadable => Throw (js "body stream failed")
           | DdgEmpty => Ok []
           | DdgNotJson => Ok []
           | DdgNull => Throw (js "Cannot read properties of null")
           | DdgData data => Ok (collect_snippets limit (candidates_of data) ∅ [])
           end
  end.

Definition queryDuckDuckGoSnippets (query : ddg_query) (limit : nat)
  : traced (list jsstring) :=
  let* _ := call (CallDuckDuckGo query) in
  ret (match snippets_of_reply (duckduckgo w query) limit with
       | Ok snippets => snippets
       | Throw _ => []
       end).

(** ** Strategic Context Aggregator *)

Definition emptyStrategicBuckets : StrategicContextBuckets :=
  {| buckets := list_to_map ((λ k, (k, [])) <$> all_bucket_keys);
     city_snapshot := None |}.

Definition strategic (k : ContextBucketKey) (cap : nat) : StrategicQueryConfig :=
  {| key := k; templates := [0; 1; 2]; limit := Some cap |}.

Definition STRATEGIC_QUERIES : list StrategicQueryConfig :=
  [strategic state_identity 2; strategic state_trends 3;
   strategic seasonal_rhythms 3; strategic community_traditions 3;
   strategic iconic_destinations 3; strategic outdoor_showstoppers 3;
   strategic neighborhood_archetypes 3; strategic home_projects 2;
   strategic economic_momentum 3; strategic population_growth 2;
   strategic desirability_factors 3; strategic sports_heat 3;
   strategic food_and_drink 3; strategic civic_culture 2;
   strategic housing_signals 2; strategic life_stage_notes 2;
   strategic positive_news 2; strategic emotional_connectors 2].

(** [for (const snippet of response.value)] *)
Fixpoint push_snippets (cap : nat) (bucket snippets : list jsstring)
  : list jsstring :=
  match snippets with
  | [] => bucket
  | snippet :: rest =>
      if decide (snippet ∈ bucket) then push_snippets cap bucket rest
      else
        let bucket' := bucket ++ [snippet] in
        if decide (cap ≤ length bucket') then bucket'
        else push_snippets cap bucket' rest
  end.

(** [for (const response of responses)] over the settled outcomes. *)
Fixpoint merge_responses (cap : nat) (bucket : list jsstring)
    (responses : list (result (list jsstring))) : list jsstring :=
  match responses with
  | [] => bucket
  | Throw _ :: rest => merge_responses cap bucket rest
  | Ok snippets :: rest =>
      let bucket' := push_snippets cap bucket snippets in
      if decide (cap ≤ length bucket') then bucket'
      else merge_responses cap bucket' rest
  end.

(** The mapper handed to [mapWithConcurrency]. *)
Definition bucket_mapper (city state zip : jsstring)
    (config : StrategicQueryConfig)
  : traced (ContextBucketKey * list jsstring) :=
  let cap := default 3 (limit config) in
  let queries :=
    (λ template, StrategicQuery (key config) template city state zip)
      <$> templates config in
  let* responses :=
    sequence ((λ query, queryDuckDuckGoSnippets query cap) <$> queries) in
  ret (key config, merge_responses cap [] (Ok <$> responses)).

(** What a fan-out through [mapWithConcurrency] hands back: the slots of
    the result array and the calls of the mappers that filled them. *)
Definition awaited {A} (p : promise (list (option (traced A))))
  : traced (promise (list (option A))) :=
  match p with
  | Some (Ok slots) =>
      (Some (Ok ((λ slot : option (traced A), fst <$> slot) <$> slots)),
       concat ((λ slot : option (traced A),
                  match slot with Some m => m.2 | None => [] end) <$> slots))
  | Some (Throw e) => (Some (Throw e), [])
  | None => (None, [])
  end.

(** [for (const [key, values] of entries) buckets[key] = values] *)
Fixpoint assign_entries
    (entries : list (option (ContextBucketKey * list jsstring)))
    (b : gmap ContextBucketKey (list jsstring))
  : result (gmap ContextBucketKey (list jsstring)) :=
  match entries with
  | [] => Ok b
  | None :: _ => Throw (js "undefined is not iterable")
  | Some (k, values) :: rest => assign_entries rest (<[k := values]> b)
  end.

Definition snapshot_order : list ContextBucketKey :=
  [state_identity; state_trends; community_traditions; iconic_destinations;
   outdoor_showstoppers; neighborhood_archetypes; food_and_drink;
   emotional_connectors; positive_news].

(** [buckets.k[0] || ...] *)
Definition first_sentence (b : gmap ContextBucketKey (list jsstring))
    (k : ContextBucketKey) : option jsstring :=
  truthy (head (default [] (b !! k))).

Definition snapshot_of (b : gmap ContextBucketKey (list jsstring))
  : option jsstring :=
  foldr (λ k later, match first_sentence b k with
                    | Some s => Some s
                    | None => later
                    end) None snapshot_order.

Definition fetchStrategicContext (city state zip : jsstring)
  : traced (promise StrategicContextBuckets) :=
  match state with
  | [] => ret (Some (Ok emptyStrategicBuckets))
  | _ :: _ =>
      let replacements_city := match city with [] => state | _ => city end in
      let* entries :=
        awaited (mapWithConcurrency_inorder STRATEGIC_QUERIES
                   (λ config _, Ok (bucket_mapper replacements_city state zip config))
                   4) in
      ret (match entries with
           | None => None
           | Some (Throw e) => Some (Throw e)
           | Some (Ok entries) =>
               match assign_entries entries (buckets emptyStrategicBuckets) with
               | Throw e => Some (Throw e)
               | Ok b =>
                   Some (Ok {| buckets := b; city_snapshot := snapshot_of b |})
               end
           end)
  end.

(** ** Place Source *)

Definition place_queries : list (jsstring * jsstring) :=
  [(js "park", js "Park"); (js "trail", js "Trail"); (js "lake", js "Lake");
   (js "stadium", js "Stadium"); (js "recreation center", js "Rec Center");
   (js "community center", js "Community Hub"); (js "museum", js "Museum");
   (js "farmers market", js "Market");
   (js "shopping center", js "Shopping Destination");
   (js "brewery", js "Brewery")].

(** The body of [for (const item of data)]: [None] for a skipped item. *)
Definition place_of_item (latitude longitude : number) (label : jsstring)
    (item : OsmItem) : option LocalPlace :=
  match truthy (display_name item) with
  | None => None
  | Some full =>
      Some {| name := default full (head (split 44 full));
              category := Some label;
              distance_miles :=
                match lat item, lon item with
                | Some placeLat, Some placeLon =>
                    Some (rounded_miles latitude longitude placeLat placeLon)
                | _, _ => None
                end;
              url := match truthy (wikipedia item) with
                     | Some u => Some u
                     | None => truthy (website item)
                     end;
              summary := None |}
  end.

(** A category query that brings nothing. *)
Definition failed_place_query (reply : fetch_outcome osm_body) : Prop :=
  match reply with
  | HttpReply status (OsmArray _) => status_ok status = false
  | _ => True
  end.

(** The body of the [try] of the category mapper. *)
Definition places_of_reply (latitude longitude : number) (label : jsstring)
    (reply : fetch_outcome osm_body) : result (list LocalPlace) :=
  match reply with
  | NetworkError message => Throw message
  | HttpReply status body =>
      if negb (status_ok status) then Ok []
      else match body with
           | OsmNotJson => Throw (js "Unexpected token")
           | OsmNotIterable => Throw (js "data is not iterable")
           | OsmArray items =>
               Ok (omap (place_of_item latitude longitude label) items)
           end
  end.

Definition category_mapper (latitude longitude : number) (per_query : nat)
    (entry : jsstring * jsstring) : traced (list LocalPlace) :=
  let '(query, label) := entry in
  let* _ := call (CallNominatim query) in
  ret (match places_of_reply latitude longitude label
               (nominatim w query latitude longitude per_query) with
       | Ok found => found
       | Throw _ => []
       end).

(** The two nested loops that fill [results] through [seen]. *)
Fixpoint merge_places (places : list LocalPlace) (seen : gset (list N))
    (merged : list LocalPlace) : list LocalPlace :=
  match places with
  | [] => merged
  | place :: rest =>
      let normalized := toLowerCase (name place) in
      if decide (normalized ∈ seen) then merge_places rest seen merged
      else merge_places rest ({[normalized]} ∪ seen) (merged ++ [place])
  end.

(** [for (const placeList of queryResults)]: a hole cannot be iterated. *)
Fixpoint place_lists (slots : list (option (list LocalPlace)))
  : result (list (list LocalPlace)) :=
  match slots with
  | [] => Ok []
  | None :: _ => Throw (js "undefined is not iterable")
  | Some l :: rest =>
      match place_lists rest with
      | Ok ls => Ok (l :: ls)
      | Throw e => Throw e
      end
  end.

Definition fetchLocalPlaces (latitude longitude : option number)
    (per_query : nat) : traced (promise (list LocalPlace)) :=
  match latitude, longitude with
  | Some la, Some lo =>
      let* queryResults :=
        awaited (mapWithConcurrency_inorder place_queries
                   (λ entry _, Ok (category_mapper la lo per_query entry)) 3) in
      ret (match queryResults with
           | None => None
           | Some (Throw e) => Some (Throw e)
           | Some (Ok slots) =>
               match place_lists slots with
               | Throw e => Some (Throw e)
               | Ok lists => Some (Ok (merge_places (concat lists) ∅ []))
               end
           end)
  | _, _ => ret (Some (Ok []))
  end.

(** ** Place Enricher *)

Definition summarizePlace (place : LocalPlace) : jsstring :=
  let descriptors :=
    match truthy (category place) with
    | Some c => [toLowerCase c]
    | None => []
    end ++
    match distance_miles place with
    | Some d => [js_of_number d ++ js " miles from the ZIP center"]
    | None => []
    end in
  let descriptorText :=
    match descriptors with
    | [] => js "local favorite"
    | _ :: _ => join (js ", ") descriptors
    end in
  name place ++ js " is a " ++ descriptorText ++
  match truthy (url place) with
  | Some _ => js " that residents often mention online."
  | None => js "."
  end.

(** [for (const query of highlightQueries)] *)
Fixpoint first_highlight (queries : list ddg_query) : traced (option jsstring) :=
  match queries with
  | [] => ret None
  | query :: rest =>
      let* found := queryDuckDuckGoSnippets query 1 in
      match truthy (head found) with
      | Some highlight => ret (Some highlight)
      | None => first_highlight rest
      end
  end.

Definition enrich_place (city state : jsstring) (index : nat)
    (place : LocalPlace) : traced LocalPlace :=
  let* highlight :=
    match city, state with
    | _ :: _, _ :: _ =>
        if decide (index < 3)
        then first_highlight [WhyLocalsLove (name place) city state;
                              PopularActivities (name place) city state]
        else ret None
    | _, _ => ret None
    end in
  ret {| name := name place; category := category place;
         distance_miles := distance_miles place; url := url place;
         summary := Some (default (summarizePlace place) highlight) |}.

Definition enrichLocalPlaces (places : list LocalPlace) (city state : jsstring)
  : traced (list LocalPlace) :=
  sequence (imap (enrich_place city state) places).

(** ** Synthesis Parser *)

Definition fence : jsstring := js "```".

(** The text up to the next fence, when there is one: the lazy
    [([\s\S]*?)] followed by the closing fence. *)
Fixpoint until_fence (s : jsstring) : option jsstring :=
  if startsWith fence s then Some []
  else match s with
       | [] => None
       | c :: rest => (λ inner, c :: inner) <$> until_fence rest
       end.

(** The opening [```json] under the [i] flag, and the plain opening. *)
Definition after_json_fence (s : jsstring) : option jsstring :=
  if startsWith fence s &&
     bool_decide (ascii_lower <$> take 4 (drop 3 s) = js "json")
  then Some (drop 7 s) else None.

Definition after_fence (s : jsstring) : option jsstring :=
  if startsWith fence s then Some (drop 3 s) else None.

(** [content.match(re)?.[1]]: the leftmost position where the opening
    matches and a closing fence follows. *)
Fixpoint fenced (opening : jsstring → option jsstring) (s : jsstring)
  : option jsstring :=
  match opening s ≫= until_fence with
  | Some inner => Some inner
  | None =>
      match s with
      | [] => None
      | _ :: rest => fenced opening rest
      end
  end.

Definition unfence (content : jsstring) : jsstring :=
  match fenced after_json_fence content with
  | Some inner => inner
  | None => default content (fenced after_fence content)
  end.

(** The property names every object literal inherits. *)
Definition Object_prototype_keys : list jsstring :=
  [js "constructor"; js "__defineGetter__"; js "__defineSetter__";
   js "hasOwnProperty"; js "__lookupGetter__"; js "__lookupSetter__";
   js "isPrototypeOf"; js "propertyIsEnumerable"; js "toString";
   js "valueOf"; js "__proto__"; js "toLocaleString"].

(** The body of [for (const line of lines)].  [knowledge[bucket]] reads
    through the prototype: on an inherited name it is neither falsy nor an
    array, and [push] is not a function of it. *)
Definition parse_line (st : KnowledgeBrief * list GrokAnchor) (line : jsstring)
  : result (KnowledgeBrief * list GrokAnchor) :=
  let '(knowledge, anchors) := st in
  if startsWith (js "ANCHOR|") line then
    let parts := trim <$> split 124 line in
    if decide (4 ≤ length parts)
    then Ok (knowledge,
             anchors ++ [{| anchor_category := default [] (parts !! 1);
                            anchor_name := default [] (parts !! 2);
                            anchor_summary := join (js " ") (drop 3 parts) |}])
    else Ok st
  else
    match indexOf 58 line with
    | None => Ok st
    | Some separatorIndex =>
        let bucket := toLowerCase (trim (take separatorIndex line)) in
        let sentence := trim (drop (S separatorIndex) line) in
        match bucket, sentence with
        | [], _ | _, [] => Ok st
        | _, _ =>
            match knowledge !! bucket with
            | Some sentences =>
                Ok (<[bucket := sentences ++ [sentence]]> knowledge, anchors)
            | None =>
                if decide (bucket ∈ Object_prototype_keys)
                then Throw (js "knowledge[bucket].push is not a function")
                else Ok (<[bucket := [sentence]]> knowledge, anchors)
            end
        end
    end.


(** A line that gives neither an anchor nor a sentence: an anchor line
    with fewer than four fields, or another line without a colon. *)
Definition malformed (line : jsstring) : Prop :=
  if startsWith (js "ANCHOR|") line
  then length (split 124 line) < 4
  else 58%N ∉ line.

Fixpoint parse_lines (lines : list jsstring)
    (st : KnowledgeBrief * list GrokAnchor)
  : result (KnowledgeBrief * list GrokAnchor) :=
  match lines with
  | [] => Ok st
  | line :: rest =>
      match parse_line st line with
      | Ok st' => parse_lines rest st'
      | Throw e => Throw e
      end
  end.

(** [content.split(/\r?\n/).map(trim).filter(Boolean)] *)
Definition lines_of (content : jsstring) : list jsstring :=
  filter (λ line, line ≠ []) (trim <$> split_lines content).

Definition empty_synthesis : jsstring :=
  js "Grok returned an empty synthesis payload.".

(** [callGrok] from the point where [content] is known to be a string. *)
Definition parse_synthesis (content : jsstring) : result GrokSynthesis :=
  let content := trim (unfence content) in
  match parse_lines (lines_of content) (∅, []) with
  | Throw e => Throw e
  | Ok (knowledge, anchors) =>
      if bool_decide (knowledge = ∅) && bool_decide (anchors = [])
      then Throw empty_synthesis
      else Ok {| knowledge := knowledge; anchors := anchors |}
  end.

Definition callGrok (context : GrokContext) : traced (result GrokSynthesis) :=
  match GROK_API_KEY w with
  | [] => ret (Throw (js "GROK_API_KEY is not configured."))
  | _ :: _ =>
      match grokApiUrl w with
      | [] => ret (Throw (js "GROK_API_URL (or GROK_API_BASE_URL) is not configured."))
      | _ :: _ =>
          if negb (grokApiUrl_parses w)
          then ret (Throw (js "GROK_API_URL is not a valid URL."))
          else
            let* _ := call (CallGrok context) in
            ret (match grok w context with
                 | NetworkError message => Throw message
                 | HttpReply status body =>
                     if negb (status_ok status) then
                       let errorPreview :=
                         match body_text body with
                         | Some text => take 500 text
                         | None => []
                         end in
                       Throw (js "Grok responded with status " ++ js_of_N status
                              ++ match errorPreview with
                                 | [] => []
                                 | _ :: _ => js ": " ++ errorPreview
                                 end)
                     else
                       match body_json body with
                       | Throw message => Throw message
                       | Ok None => Throw (js "Grok returned invalid content payload.")
                       | Ok (Some content) => parse_synthesis content
                       end
                 end)
      end
  end.

(** ** Geo Resolver *)

Definition lookupZip (zip : jsstring) : traced (result (option GeoResult)) :=
  let* _ := call (CallZippopotam zip) in
  ret (match zippopotam w zip with
       | NetworkError message => Throw message
       | HttpReply status body =>
           if (status =? 404)%N then Ok None
           else if negb (status_ok status)
           then Throw (js "Zippopotam lookup failed with status " ++ js_of_N status)
           else
             match body with
             | ZipNotJson message => Throw message
             | ZipJson data =>
                 match default [] (places data) with
                 | [] => Ok None
                 | first :: _ =>
                     let place := zip_place <$> first in
                     Ok (Some
                       {| zip := default zip (post_code data);
                          city := default [] (place ≫= place_name);
                          state :=
                            default []
                              (match place ≫= state_abbreviation with
                               | Some s => Some s
                               | None => place ≫= state_name
                               end);
                          latitude := first ≫= zip_latitude;
                          longitude := first ≫= zip_longitude |})
                 end
             end
       end).

(** ** Response Cache and Orchestrator *)

Definition CACHE_TTL_MS : Z :=
  ((if (CACHE_TTL_SECONDS w =? 0) then 6 * 60 * 60 else CACHE_TTL_SECONDS w)
   * 1000)%Z.

Record CacheEntry := {
  timestamp : Z;
  payload : ZipRapportResponse;
}.

(** The module-level [cache] and the clock [Date.now()] reads. *)
Record Server := {
  cache : gmap (list N) CacheEntry;
  clock : Z;
}.

Inductive Response :=
| Json (body : ZipRapportResponse)                    (* status 200 *)
| JsonDetail (status : N) (detail : jsstring).

(** [/^\d{5}$/.test(zip)] *)
Definition validateZip (zip : jsstring) : bool :=
  bool_decide (length zip = 5) &&
  forallb (λ c, (48 <=? c) && (c <=? 57))%N zip.

(** [withTimeout]: the timer wins when it fires first, and always against
    a promise that never settles. *)
Definition withTimeout {A} (fires : bool) (p : promise A)
    (errorMessage : jsstring) : result A :=
  if fires then Throw errorMessage
  else match p with
       | Some r => r
       | None => Throw errorMessage
       end.

(** [p.catch(() => fallback)] *)
Definition or_else {A} (r : result A) (fallback : A) : A :=
  match r with
  | Ok a => a
  | Throw _ => fallback
  end.

(** The cached payload [GET] answers with: the lines from [cache.get(zip)]
    to the early [return].  A [ZipRapportResponse] always carries the
    strategic lists and an array of anchors, so the two shape tests
    succeed. *)
Definition cache_get (s : Server) (now : Z) (zip : jsstring)
  : option ZipRapportResponse :=
  match cache s !! zip with
  | Some cached =>
      if (now - timestamp cached <? CACHE_TTL_MS)%Z
      then Some (payload cached)
      else None
  | None => None
  end.

(** [cache.set(zip, { timestamp, payload })] *)
Definition cache_set (s : Server) (zip : jsstring) (entry : CacheEntry)
  : gmap (list N) CacheEntry :=
  <[zip := entry]> (cache s).

Definition wait (st : stage) (s : Server) : Server :=
  {| cache := cache s; clock := (clock s + elapsed w st)%Z |}.

(** The time a run of the whole pipeline takes. *)
Definition pipeline_time : Z :=
  (elapsed w GeoResolve + elapsed w Fetch + elapsed w Enrich
   + elapsed w Synthesize)%Z.

(** The [catch] of [GET]. *)
Definition failure (message : jsstring) : Response :=
  JsonDetail (if includes (js "GROK_API_KEY") message then 503 else 502)%N
             message.

(** The [try] block of [GET], entered at time [now] after a cache miss. *)
Definition build (s : Server) (now : Z) (zip_param : jsstring)
  : traced (Response * Server) :=
  let* geo := lookupZip zip_param in
  let s := wait GeoResolve s in
  match withTimeout (geo_deadline_fires w) (Some geo) (js "Geo lookup timed out.") with
  | Throw message => ret (failure message, s)
  | Ok None =>
      ret (JsonDetail 404 (js "ZIP " ++ zip_param ++ js " not found."), s)
  | Ok (Some geo) =>
      let* strategic_promise :=
        fetchStrategicContext (city geo) (state geo) (zip geo) in
      let* places_promise :=
        fetchLocalPlaces (latitude geo) (longitude geo) 5 in
      let strategicContext :=
        or_else (withTimeout (strategic_deadline_fires w) strategic_promise
                   (js "Strategic context lookup timed out."))
                emptyStrategicBuckets in
      let places :=
        or_else (withTimeout (places_deadline_fires w) places_promise
                   (js "OSM lookup timed out."))
                [] in
      let s := wait Fetch s in
      let* enhancedPlaces := enrichLocalPlaces places (city geo) (state geo) in
      let s := wait Enrich s in
      let context :=
        {| location :=
             (zip geo, city geo, state geo,
              match latitude geo, longitude geo with
              | Some la, Some lo => Some (la, lo)
              | _, _ => None
              end);
           strategic_context := strategicContext;
           anchor_spots := take 6 enhancedPlaces |} in
      let* synthesis := callGrok context in
      let s := wait Synthesize s in
      match synthesis with
      | Throw message => ret (failure message, s)
      | Ok synthesis =>
          let payload :=
            {| payload_zip := zip geo;
               payload_city := city geo;
               payload_state := state geo;
               summary_card :=
                 {| local_lifestyle_hook := [];
                    equity_or_payment_hook := [];
                    intent_probe := [] |};
               knowledge_brief := knowledge synthesis;
               grok_anchors := anchors synthesis;
               raw_strategic_context := strategicContext;
               raw_local_places := enhancedPlaces |} in
          ret (Json payload,
               {| cache := cache_set s zip_param
                             {| timestamp := now; payload := payload |};
                  clock := clock s |})
      end
  end.

Definition GET (s : Server) (zip_param : jsstring) : traced (Response * Server) :=
  if negb (bool_decide (zip_param ≠ []) && validateZip zip_param)
  then ret (JsonDetail 400 (js "ZIP code must be 5 digits."), s)
  else
    let now := clock s in
    match cache_get s now zip_param with
    | Some cachedPayload => ret (Json cachedPayload, s)
    | None => build s now zip_param
    end.
End Pipeline.

(** ** An engine and worlds for the examples

    Lower-casing restricted to Basic Latin, and whole numbers for doubles
    with a stand-in for the distance: the examples run on text in that range
    and never look at a distance. *)
Definition basic_latin : JsRuntime :=
  {| toLowerCase := fmap ascii_lower;
     toLowerCase_ascii := λ s _, eq_refl;
     number := Z;
     rounded_miles := λ _ _ _ _, 0%Z;
     js_of_number := λ x, js_of_N (Z.to_N x) |}.

(** A DuckDuckGo answer that carries a heading and nothing else. *)
Definition heading_only (heading : jsstring) : ddg_body :=
  DdgData {| Heading := Some heading; AbstractText := None; Abstract := None;
             Answer := None; Infobox_content := None; RelatedTopics := None |}.

(** A world given by the replies of its four services; no outer timer
    fires, the model endpoint is configured and the TTL is the default. *)
Definition example_world
    (zip_reply : fetch_outcome (@zip_body basic_latin))
    (ddg : @ddg_query → fetch_outcome ddg_body)
    (osm : jsstring → fetch_outcome (@osm_body basic_latin))
    (grok_reply : fetch_outcome grok_body)
    (durations : stage → Z) : @World basic_latin :=
  {| zippopotam := λ _, zip_reply;
     duckduckgo := ddg;
     nominatim := λ query _ _ _, osm query;
     grok := λ _, grok_reply;
     geo_deadline_fires := false;
     strategic_deadline_fires := false;
     places_deadline_fires := false;
     elapsed := durations;
     GROK_API_KEY := js "xai-key";
     grokApiUrl := js "https://api.x.ai";
     grokApiUrl_parses := true;
     CACHE_TTL_SECONDS := 0 |}.

(** Every search call fails. *)
Definition no_search_world (zip_reply : fetch_outcome (@zip_body basic_latin))
    (grok_reply : fetch_outcome grok_body) : @World basic_latin :=
  example_world zip_reply (λ _, NetworkError (js "fetch failed"))
                (λ _, NetworkError (js "fetch failed")) grok_reply (λ _, 0%Z).

(** Two phrasings of the [state_identity] bucket are answered with the
    same heading in different case; every other search call fails. *)
Definition case_variant_world : @World basic_latin :=
  example_world (NetworkError (js "fetch failed"))
    (λ query,
       match query with
       | StrategicQuery state_identity 0 _ _ _ =>
           HttpReply 200 (heading_only (js "Arizona"))
       | StrategicQuery state_identity 1 _ _ _ =>
           HttpReply 200 (heading_only (js "ARIZONA"))
       | _ => NetworkError (js "fetch failed")
       end)
    (λ _, NetworkError (js "fetch failed"))
    (NetworkError (js "fetch failed")) (λ _, 0%Z).



(** Zippopotam answers 200 with a payload that has no [places]. *)
Definition no_places_world : @World basic_latin :=
  no_search_world
    (HttpReply 200 (ZipJson {| post_code := None; places := None |}))
    (NetworkError (js "fetch failed")).

Definition scottsdale_reply : fetch_outcome (@zip_body basic_latin) :=
  HttpReply 200
    (ZipJson
       {| post_code := Some (js "85260");
          places :=
            Some [Some {| zip_place :=
                            {| place_name := Some (js "Scottsdale");
                               state_abbreviation := Some (js "AZ");
                               state_name := Some (js "Arizona") |};
                          zip_latitude := None;
                          zip_longitude := None |}] |}).

Definition brief_reply : fetch_outcome grok_body :=
  HttpReply 200
    {| body_text := None;
       body_json := Ok (Some (js "STATE_IDENTITY: Arizona blends desert living with booming tech corridors.")) |}.

(** The ZIP resolves and the model answers, while every search call fails. *)
Definition thin_world : @World basic_latin :=
  no_search_world scottsdale_reply brief_reply.

(** The same, with one second spent in each stage. *)
Definition slow_world : @World basic_latin :=
  example_world scottsdale_reply (λ _, NetworkError (js "fetch failed"))
                (λ _, NetworkError (js "fetch failed")) brief_reply
                (λ _, 1000%Z).

(** The payload the handler assembles in [thin_world] and [slow_world]. *)
Definition brief_payload : @ZipRapportResponse basic_latin :=
  {| payload_zip := js "85260";
     payload_city := js "Scottsdale";
     payload_state := js "AZ";
     summary_card :=
       {| local_lifestyle_hook := [];
          equity_or_payment_hook := [];
          intent_probe := [] |};
     knowledge_brief :=
       {[ js "state_identity" :=
            [js "Arizona blends desert living with booming tech corridors."] ]};
     grok_anchors := [];
     raw_strategic_context := @emptyStrategicBuckets;
     raw_local_places := [] |}.

(** * Properties *)

(** ** Bounded Concurrency Runner *)

Section MapWithConcurrencyFacts.
Context {T R : Type}.
Variable items : list T.
Variable mapper : T → nat → result R.



Lemma elem_of_awaiting_from k ws w i :
  (w, i) ∈ awaiting_from k ws ↔ k ≤ w ∧ ws !! (w - k) = Some (Some i).
Proof.
  revert k. induction ws as [|[j|] ws IH]; intros k; simpl.
  - split; [by intros ?%elem_of_nil|by intros [_ ?]].
  - rewrite elem_of_cons, IH. split.
    + intros [Heq|[Hle Hl]].
      * inversion Heq; subst. split; [lia|]. by replace (k - k) with 0 by lia.
      * split; [lia|]. replace (w - k) with (S (w - S k)) by lia. done.
    + intros [Hle Hl]. destruct (decide (w = k)) as [->|Hne].
      * left. replace (k - k) with 0 in Hl by lia. simpl in Hl. congruence.
      * right. split; [lia|]. replace (w - k) with (S (w - S k)) in Hl by lia. done.
  - rewrite IH. split.
    + intros [Hle Hl]. split; [lia|]. replace (w - k) with (S (w - S k)) by lia. done.
    + intros [Hle Hl]. destruct (decide (w = k)) as [->|Hne].
      * replace (k - k) with 0 in Hl by lia. simpl in Hl. congruence.
      * split; [lia|]. replace (w - k) with (S (w - S k)) in Hl by lia. done.
Qed.

Lemma elem_of_awaiting ws w i :
  (w, i) ∈ awaiting ws ↔ ws !! w = Some (Some i).
Proof.
  unfold awaiting. rewrite elem_of_awaiting_from.
  replace (w - 0) with w by lia. intuition lia.
Qed.

Lemma awaiting_from_insert_Some k ws w i j :
  ws !! w = Some (Some i) →
  length (awaiting_from k (<[w := Some j]> ws)) = length (awaiting_from k ws).
Proof.
  revert k w. induction ws as [|o ws IH]; intros k w Hw; [done|].
  destruct w as [|w]; simpl in *.
  - inversion Hw; subst. done.
  - destruct o; simpl; rewrite (IH _ _ Hw); done.
Qed.

Lemma awaiting_from_insert_None k ws w i :
  ws !! w = Some (Some i) →
  S (length (awaiting_from k (<[w := None]> ws))) = length (awaiting_from k ws).
Proof.
  revert k w. induction ws as [|o ws IH]; intros k w Hw; [done|].
  destruct w as [|w]; simpl in *.
  - inversion Hw; subst. done.
  - destruct o; simpl; rewrite <- (IH _ _ Hw); done.
Qed.

Lemma awaiting_from_nil k ws :
  awaiting_from k ws = [] → Forall (λ o, o = None) ws.
Proof.
  revert k. induction ws as [|[i|] ws IH]; intros k; simpl; [constructor|done|].
  intros H. constructor; eauto.
Qed.

Lemma awaiting_from_all_Some k (l : list nat) :
  length (awaiting_from k (Some <$> l)) = length l.
Proof. revert k. induction l as [|i l IH]; intros k; simpl; [done|]. by rewrite IH. Qed.


Lemma spawn_workers (p : pool R) : length (workers (spawn items p)) = S (length (workers p)).
Proof. simpl. rewrite length_app. simpl. lia. Qed.





Lemma start_unfold n :
  n ≤ length items →
  start items n = Pool n (replicate (length items) (@None R)) (Some <$> seq 0 n) None.
Proof.
  unfold start. induction n as [|n IH]; intros Hn; [done|].
  rewrite Nat.iter_succ, IH by lia. unfold spawn, take_next. cbn [cursor results workers rejection].
  rewrite decide_True by lia.
  f_equal. rewrite seq_S. by rewrite fmap_app.
Qed.

Lemma resume_idle (p : pool R) c :
  awaiting (workers p) = [] → resume items mapper p c = p.
Proof. unfold resume. by intros ->. Qed.

Lemma run_idle sched (p : pool R) :
  awaiting (workers p) = [] → run items mapper sched p = p.
Proof.
  intros Hp. unfold run. induction sched as [|c sched IH]; [done|].
  simpl. by rewrite resume_idle.
Qed.

Lemma resume_pick (p : pool R) c :
  awaiting (workers p) ≠ [] →
  ∃ w i, workers p !! w = Some (Some i) ∧
         resume items mapper p c = settle items mapper w i p.
Proof.
  unfold resume. destruct (awaiting (workers p)) as [|a outs] eqn:Hou; [done|].
  intros _. set (k := c mod length (a :: outs)).
  assert (Hin : nth k (a :: outs) a ∈ a :: outs).
  { apply list_elem_of_In, nth_In. apply Nat.mod_upper_bound. simpl. lia. }
  destruct (nth k (a :: outs) a) as [w i].
  exists w, i. split; [|done]. apply elem_of_awaiting. by rewrite Hou.
Qed.

(** *** Runs in which every invocation fulfils *)

Variable rs : list R.
Hypothesis mapper_fulfils : imap (λ i x, mapper x i) items = Ok <$> rs.

Lemma fulfils_length : length rs = length items.
Proof.
  assert (H := f_equal length mapper_fulfils).
  rewrite length_imap, length_fmap in H. lia.
Qed.

Lemma fulfils_lookup i x :
  items !! i = Some x → ∃ r, rs !! i = Some r ∧ mapper x i = Ok r.
Proof.
  intros Hx. assert (H := f_equal (λ l, l !! i) mapper_fulfils). simpl in H.
  rewrite list_lookup_imap, list_lookup_fmap, Hx in H. simpl in H.
  destruct (rs !! i) as [r|]; [|done]. exists r. split; [done|].
  simpl in H. congruence.
Qed.

Local Abbreviation good := (good_pool items rs).

Lemma good_start n : n ≤ length items → good n (start items n).
Proof.
  intros Hn. rewrite start_unfold by done. split; simpl.
  - done.
  - by rewrite length_replicate.
  - intros i r Hi. apply lookup_replicate in Hi as [? _]. done.
  - intros i Hi Hc _. exists i. rewrite list_lookup_fmap.
    by rewrite lookup_seq_lt.
  - intros w i Hw. rewrite list_lookup_fmap in Hw.
    destruct (seq 0 n !! w) as [j|] eqn:Hj; [|done].
    apply lookup_seq in Hj. simpl in Hw. inversion Hw. lia.
  - unfold outstanding, awaiting. simpl. rewrite awaiting_from_all_Some, length_seq. lia.
Qed.

Lemma good_settle n p w i :
  good n p → workers p !! w = Some (Some i) →
  good n (settle items mapper w i p) ∧
  cursor (settle items mapper w i p) = S (cursor p).
Proof.
  intros [Hrej Hlen Hfill Hhole Hidx Hcount] Hw.
  assert (Hi : i < length items) by eauto.
  destruct (lookup_lt_is_Some_2 items i Hi) as [x Hx].
  destruct (fulfils_lookup i x Hx) as (r & Hr & Hm).
  unfold settle. rewrite Hx, Hm. split; [|done]. split; simpl.
  - done.
  - by rewrite length_insert.
  - intros j r' Hj. destruct (decide (i = j)) as [->|Hne].
    + rewrite list_lookup_insert_eq in Hj by lia. congruence.
    + rewrite list_lookup_insert_ne in Hj by done. eauto.
  - intros j Hj Hc Hnone. destruct (decide (i = j)) as [->|Hne].
    { rewrite list_lookup_insert_eq in Hnone by lia. done. }
    rewrite list_lookup_insert_ne in Hnone by done.
    destruct (decide (j = cursor p)) as [->|Hnc].
    + exists w. rewrite list_lookup_insert_eq by (by eapply lookup_lt_Some).
      unfold take_next. by rewrite decide_True.
    + destruct (Hhole j Hj ltac:(lia) Hnone) as [w' Hw'].
      exists w'. rewrite list_lookup_insert_ne; [done|]. congruence.
  - intros w' j Hj. destruct (decide (w = w')) as [->|Hne].
    + rewrite list_lookup_insert_eq in Hj by (by eapply lookup_lt_Some).
      unfold take_next in Hj. case_decide; [|done]. inversion Hj. lia.
    + rewrite list_lookup_insert_ne in Hj by done. eauto.
  - unfold outstanding, awaiting in *. simpl. unfold take_next. case_decide.
    + rewrite (awaiting_from_insert_Some _ _ _ i) by done. lia.
    + pose proof (awaiting_from_insert_None 0 _ _ _ Hw). lia.
Qed.

Lemma good_run n sched p :
  good n p →
  good n (run items mapper sched p) ∧
  (n + length items ≤ length sched + cursor p →
   outstanding (run items mapper sched p) = 0).
Proof.
  revert p. induction sched as [|c sched IH]; intros p Hp.
  - split; [done|]. simpl. intros Hc. pose proof (good_count _ _ _ _ Hp). lia.
  - unfold run in *. simpl.
    destruct (awaiting (workers p)) as [|a outs] eqn:Hou.
    + rewrite resume_idle by done. fold (run items mapper sched p).
      rewrite run_idle by done. split; [done|].
      intros _. unfold outstanding. by rewrite Hou.
    + destruct (resume_pick p c) as (w & i & Hw & ->); [by rewrite Hou|].
      destruct (good_settle n p w i Hp Hw) as [Hg Hc].
      destruct (IH _ Hg) as [Hg' Hz]. split; [done|].
      intros Hlen. apply Hz. rewrite Hc. simpl in Hlen. lia.
Qed.

Lemma good_finished n p :
  1 ≤ n → good n p → outstanding p = 0 →
  outcome p = Some (Ok (Some <$> rs)).
Proof.
  intros Hn [Hrej Hlen Hfill Hhole Hidx Hcount] Hz.
  assert (Hnone : Forall (λ o, o = None) (workers p)).
  { apply (awaiting_from_nil 0). by apply nil_length_inv. }
  unfold outcome. rewrite Hrej.
  assert (Hall : forallb (λ o, bool_decide (o = None)) (workers p) = true).
  { apply forallb_forall. intros o Ho. apply bool_decide_eq_true.
    rewrite Forall_forall in Hnone. apply Hnone. by apply list_elem_of_In. }
  rewrite Hall. do 2 f_equal. apply list_eq. intros i.
  rewrite list_lookup_fmap.
  destruct (decide (i < length items)) as [Hi|Hi].
  - destruct (lookup_lt_is_Some_2 (results p) i ltac:(lia)) as [[r|] Hr].
    + rewrite Hr. by rewrite (Hfill _ _ Hr).
    + destruct (Hhole i Hi ltac:(lia) Hr) as [w Hw].
      rewrite Forall_lookup in Hnone. by specialize (Hnone _ _ Hw).
  - rewrite (lookup_ge_None_2 (results p)) by lia.
    rewrite (lookup_ge_None_2 rs); [done|]. rewrite fulfils_length. lia.
Qed.
End MapWithConcurrencyFacts.



Lemma mapWithConcurrency_fulfils {T R : Type} (items : list T)
    (mapper : T → nat → result R) (limit : nat) (schedule : list nat)
    (rs : list R) :
  1 ≤ limit →
  imap (λ i x, mapper x i) items = Ok <$> rs →
  length items ≤ length schedule →
  mapWithConcurrency items mapper schedule limit = Some (Ok (Some <$> rs)).
Proof.
  intros Hl Hrs Hlen. unfold mapWithConcurrency.
  destruct items as [|x items'] eqn:Hit.
  { destruct rs; [done|]. simpl in Hrs. done. }
  rewrite <- Hit in *. set (n := Nat.min limit (length items)).
  assert (Hn : n ≤ length items) by lia.
  destruct (good_run items mapper rs Hrs n schedule _
              (good_start items rs n Hn)) as [Hg Hz].
  apply (good_finished items mapper rs Hrs n); [|done|].
  - subst n. rewrite Hit. simpl. lia.
  - apply Hz. rewrite start_unfold by done. simpl. lia.
Qed.

(** A fan-out whose mapper never rejects hands back one filled slot per
    item, in the order of the items. *)
Lemma mapWithConcurrency_inorder_total {T R : Type} (items : list T)
    (f : T → R) (limit : nat) :
  1 ≤ limit →
  mapWithConcurrency_inorder items (λ x _, Ok (f x)) limit
  = Some (Ok (Some <$> (f <$> items))).
Proof.
  intros Hl. apply mapWithConcurrency_fulfils; [done| |by rewrite length_replicate].
  apply list_eq. intros i.
  rewrite list_lookup_imap, !list_lookup_fmap. by destruct (items !! i).
Qed.



(** ** Strings *)




Lemma indexOf_None c s : c ∉ s → indexOf c s = None.
Proof.
  induction s as [|d s IH]; intros Hc; [done|].
  apply not_elem_of_cons in Hc as [Hd Hs]. simpl.
  destruct (N.eqb_spec d c) as [->|_]; [done|]. by rewrite IH.
Qed.





(** ** Traced computations *)

Section TracedFacts.
Context `{JsRuntime}.

Lemma bind_fst {A B} (m : traced A) (k : A → traced B) :
  (bind m k).1 = (k m.1).1.
Proof. unfold bind. by destruct (k m.1). Qed.

Lemma bind_snd {A B} (m : traced A) (k : A → traced B) :
  (bind m k).2 = m.2 ++ (k m.1).2.
Proof. unfold bind. by destruct (k m.1). Qed.
End TracedFacts.

(** ** Synthesis Parser *)









(** The only error the line loop raises is the [TypeError] of [push]. *)
Lemma parse_lines_throw `{JsRuntime} lines st e :
  parse_lines lines st = Throw e →
  e = js "knowledge[bucket].push is not a function".
Proof.
  revert st. induction lines as [|l lines IH]; intros st; [done|].
  simpl. destruct (parse_line st l) as [st'|e'] eqn:Hl; [by apply IH|].
  intros [= <-]. unfold parse_line in Hl. destruct st as [k a].
  destruct (startsWith _ l).
  { by destruct (decide _). }
  destruct (indexOf 58 l) as [i|]; [|done].
  destruct (toLowerCase _) as [|b bucket]; [done|].
  destruct (trim (drop _ _)) as [|c sentence]; [done|].
  destruct (k !! _); [done|].
  destruct (decide _); [|done]. by inversion Hl.
Qed.

Lemma parse_line_malformed `{JsRuntime} st line :
  malformed line → parse_line st line = Ok st.
Proof.
  unfold malformed, parse_line. destruct st as [k a].
  destruct (startsWith _ line).
  - intros Hlen. rewrite decide_False; [done|]. rewrite length_fmap. lia.
  - intros Hc. by rewrite indexOf_None.
Qed.

Lemma parse_lines_malformed `{JsRuntime} lines st :
  Forall malformed lines → parse_lines lines st = Ok st.
Proof.
  induction 1 as [|l lines Hl _ IH]; [done|].
  simpl. by rewrite parse_line_malformed.
Qed.

(** C6.  The parser fails with the empty-synthesis error exactly when the
    line loop ends with an empty knowledge mapping and an empty anchor list;
    so it does on a reply whose lines are all malformed: anchor lines with
    fewer than four fields and other lines without a colon. *)
Theorem parse_synthesis_empty `{JsRuntime} (content : jsstring) :
  (parse_synthesis content = Throw empty_synthesis ↔
   parse_lines (lines_of (trim (unfence content))) (∅, []) = Ok (∅, []))
  ∧ (Forall malformed (lines_of (trim (unfence content))) →
     parse_synthesis content = Throw empty_synthesis).
Proof.
  assert (Hiff : parse_synthesis content = Throw empty_synthesis ↔
    parse_lines (lines_of (trim (unfence content))) (∅, []) = Ok (∅, [])).
  { unfold parse_synthesis.
    destruct (parse_lines _ _) as [[k a]|e] eqn:Hp.
    - destruct (bool_decide (k = ∅)) eqn:Hk; simpl.
      + apply bool_decide_eq_true in Hk as ->.
        destruct (bool_decide (a = [])) eqn:Ha.
        * apply bool_decide_eq_true in Ha as ->. done.
        * apply bool_decide_eq_false in Ha. split; [done|]. intros [= ->]. done.
      + apply bool_decide_eq_false in Hk. split; [done|]. intros [= -> _]. done.
    - apply parse_lines_throw in Hp as ->. split; [|done].
      intros Habs. vm_compute in Habs. discriminate Habs. }
  split; [done|]. intros Hm. apply Hiff. by apply parse_lines_malformed.
Qed.

Lemma parse_synthesis_empty_witness :
  @parse_synthesis basic_latin (js "no separator here
ANCHOR|Food|Joe's Grill") = Throw empty_synthesis.
Proof.
  apply (@parse_synthesis_empty basic_latin).
  vm_compute. repeat constructor; vm_compute; try lia.
  intros Hin. repeat (apply elem_of_cons in Hin as [Heq|Hin]; [discriminate Heq|]).
  by apply elem_of_nil in Hin.
Defined.






(** ** Snippet Source *)

Lemma trimStart_length s : length (trimStart s) ≤ length s.
Proof.
  induction s as [|c s IH]; simpl; [done|].
  destruct (is_space c); simpl; lia.
Qed.

Lemma trim_length s : length (trim s) ≤ length s.
Proof.
  unfold trim, trimEnd. rewrite length_reverse.
  etrans; [apply trimStart_length|]. rewrite length_reverse.
  apply trimStart_length.
Qed.

Lemma collapsed_collapse_spaces b s : collapsed b (collapse_spaces b s) = true.
Proof.
  revert b. induction s as [|c s IH]; intros b; [done|].
  simpl. destruct (is_space c) eqn:Hc.
  - destruct b; [apply IH|]. simpl. by rewrite IH.
  - simpl. rewrite Hc. apply IH.
Qed.

Lemma collapse_spaces_collapsed b s :
  collapsed b s = true → collapse_spaces b s = s.
Proof.
  revert b. induction s as [|c s IH]; intros b; [done|].
  simpl. destruct (is_space c).
  - intros [[Hc Hb]%andb_prop Hs]%andb_prop.
    apply N.eqb_eq in Hc as ->. destruct b; [done|]. by rewrite IH.
  - intros Hs. by rewrite IH.
Qed.

Lemma collapsed_weaken b s : collapsed b s = true → collapsed false s = true.
Proof.
  destruct s as [|c s]; [done|]. simpl. destruct (is_space c); [|done].
  intros [[Hc Hb]%andb_prop Hs]%andb_prop. by rewrite Hc, Hs.
Qed.

Lemma collapsed_trimStart b s :
  collapsed b s = true → collapsed false (trimStart s) = true.
Proof.
  revert b. induction s as [|c s IH]; intros b; [done|].
  simpl. destruct (is_space c) eqn:Hc.
  - intros [_ Hs]%andb_prop. by apply (IH true).
  - intros Hs. simpl. by rewrite Hc.
Qed.

Lemma collapsed_app_l b s t : collapsed b (s ++ t) = true → collapsed b s = true.
Proof.
  revert b. induction s as [|c s IH]; intros b; [done|].
  simpl. destruct (is_space c); [|apply IH].
  intros [Hcb Hs]%andb_prop. rewrite Hcb. simpl. by apply IH.
Qed.

Lemma collapsed_snoc b s c :
  is_space c = false → collapsed b s = true → collapsed b (s ++ [c]) = true.
Proof.
  intros Hc. revert b. induction s as [|d s IH]; intros b.
  - simpl. by rewrite Hc.
  - simpl. destruct (is_space d); [|apply IH].
    intros [Hdb Hs]%andb_prop. rewrite Hdb. simpl. by apply IH.
Qed.

Lemma trimStart_suffix s : ∃ p, s = p ++ trimStart s.
Proof.
  induction s as [|c s [p Hp]]; [by exists []|].
  simpl. destruct (is_space c).
  - exists (c :: p). simpl. by rewrite <- Hp.
  - by exists [].
Qed.

Lemma trimEnd_prefix s : ∃ t, s = trimEnd s ++ t.
Proof.
  unfold trimEnd. destruct (trimStart_suffix (reverse s)) as [p Hp].
  exists (reverse p). rewrite <- reverse_app, <- Hp. by rewrite reverse_involutive.
Qed.

Lemma trimStart_head s c : head (trimStart s) = Some c → is_space c = false.
Proof.
  induction s as [|d s IH]; [done|].
  simpl. destruct (is_space d) eqn:Hd; [done|]. simpl. by intros [= <-].
Qed.

Lemma trimStart_id s :
  (∀ c, head s = Some c → is_space c = false) → trimStart s = s.
Proof.
  destruct s as [|c s]; [done|]. intros Hh. simpl. by rewrite (Hh c).
Qed.

Lemma trimEnd_last s c : last (trimEnd s) = Some c → is_space c = false.
Proof.
  unfold trimEnd. rewrite last_reverse. apply trimStart_head.
Qed.

Lemma trimEnd_id s :
  (∀ c, last s = Some c → is_space c = false) → trimEnd s = s.
Proof.
  intros Hl. unfold trimEnd. rewrite trimStart_id; [apply reverse_involutive|].
  intros c. rewrite head_reverse. apply Hl.
Qed.

Lemma trimStart_snoc s c :
  is_space c = false → ∃ p, trimStart (s ++ [c]) = p ++ [c].
Proof.
  intros Hc. induction s as [|d s [p Hp]].
  - exists []. simpl. by rewrite Hc.
  - simpl. destruct (is_space d); [by exists p|]. by exists (d :: s).
Qed.

Lemma trimEnd_head s c : head s = Some c → is_space c = false →
  head (trimEnd s) = Some c.
Proof.
  destruct s as [|d s]; [done|]. simpl. intros [= ->] Hc.
  unfold trimEnd. rewrite reverse_cons.
  destruct (trimStart_snoc (reverse s) c Hc) as [p ->].
  by rewrite reverse_app.
Qed.

Lemma trim_trimmed s : trimmed_text (trim s).
Proof.
  unfold trim. split; [|apply trimEnd_last].
  intros c Hc. destruct (head (trimStart s)) as [d|] eqn:Hd.
  - pose proof (trimStart_head _ _ Hd) as Hsp.
    rewrite (trimEnd_head _ _ Hd Hsp) in Hc. by inversion Hc; subst.
  - destruct (trimStart s); [|done]. done.
Qed.

Lemma collapsed_trim b s : collapsed b s = true → collapsed false (trim s) = true.
Proof.
  intros Hs. unfold trim. apply collapsed_trimStart in Hs.
  destruct (trimEnd_prefix (trimStart s)) as [t Ht].
  rewrite Ht in Hs. by apply collapsed_app_l in Hs.
Qed.

Lemma normalized_intro s :
  collapsed false s = true → trimmed_text s → whitespace_normalized s.
Proof.
  intros Hc [Hh Hl]. unfold whitespace_normalized, normalizeBlurb.
  rewrite collapse_spaces_collapsed by done.
  unfold trim. rewrite trimStart_id by done. by apply trimEnd_id.
Qed.

Lemma trimmed_text_snoc s c :
  trimmed_text s → is_space c = false → trimmed_text (s ++ [c]).
Proof.
  intros [Hh _] Hc. split.
  - destruct s as [|d s]; simpl; [by intros ? [= <-]|]. apply Hh.
  - intros d. rewrite last_snoc. by intros [= <-].
Qed.

(** Every sentence [ensureSentence] builds is whitespace-normalized. *)
Lemma ensureSentence_normalized text : whitespace_normalized (ensureSentence text).
Proof.
  unfold ensureSentence. destruct (normalizeBlurb text) as [|c trimmed] eqn:Hn.
  { done. }
  assert (Hcol : collapsed false (c :: trimmed) = true).
  { rewrite <- Hn. unfold normalizeBlurb.
    apply (collapsed_trim false), collapsed_collapse_spaces. }
  assert (Htrim : trimmed_text (c :: trimmed)).
  { rewrite <- Hn. apply trim_trimmed. }
  assert (Hclip : collapsed false (trim (take 217 (c :: trimmed)) ++ [ellipsis]) = true
                  ∧ trimmed_text (trim (take 217 (c :: trimmed)) ++ [ellipsis])).
  { split.
    - apply collapsed_snoc; [done|]. apply (collapsed_trim false).
      rewrite <- (take_drop 217 (c :: trimmed)) in Hcol.
      by apply collapsed_app_l in Hcol.
    - apply trimmed_text_snoc; [apply trim_trimmed|done]. }
  destruct (decide _); destruct (ends_sentence _);
    apply normalized_intro; try tauto;
    try (apply collapsed_snoc; [done|tauto]);
    try (apply trimmed_text_snoc; [tauto|done]).
Qed.

Lemma ends_sentence_ellipsis s : ends_sentence (s ++ [ellipsis]) = false.
Proof. unfold ends_sentence. by rewrite last_snoc. Qed.

Lemma ends_sentence_full_stop s : ends_sentence (s ++ [46%N]) = true.
Proof. unfold ends_sentence. by rewrite last_snoc. Qed.

(** What [ensureSentence] does guarantee: a sentence of at most 221 code
    units that ends with [.], [!] or [?]. *)
Lemma ensureSentence_shape text :
  ensureSentence text = [] ∨
  (length (ensureSentence text) ≤ 221 ∧ ends_sentence (ensureSentence text) = true).
Proof.
  unfold ensureSentence.
  destruct (normalizeBlurb text) as [|c trimmed] eqn:Hn; [by left|]. right.
  destruct (decide (220 < length (c :: trimmed))) as [Hlong|Hshort].
  - rewrite ends_sentence_ellipsis. split; [|apply ends_sentence_full_stop].
    rewrite !length_app. change (length [ellipsis]) with 1.
    change (length [46%N]) with 1.
    pose proof (trim_length (take 217 (c :: trimmed))) as Hle.
    rewrite length_take in Hle. lia.
  - destruct (ends_sentence (c :: trimmed)) eqn:He.
    + split; [simpl in *; lia|done].
    + split; [|apply ends_sentence_full_stop]. rewrite length_app. simpl in *. lia.
Qed.

Section SnippetFacts.
Context `{JsRuntime}.

Lemma collect_snippets_spec limit candidates seen snippets :
  1 ≤ limit →
  length snippets < limit →
  NoDup (toLowerCase <$> snippets) →
  (∀ s, s ∈ snippets → toLowerCase s ∈ seen) →
  let out := collect_snippets limit candidates seen snippets in
  length out ≤ limit
  ∧ NoDup (toLowerCase <$> out)
  ∧ ∃ more, out = snippets ++ more
            ∧ sublist more (filter (λ s, s ≠ []) (ensureSentence <$> candidates)).
Proof.
  intros Hl. revert seen snippets.
  induction candidates as [|candidate rest IH]; intros seen snippets Hlen Hnd Hseen.
  { simpl. split; [lia|]. split; [done|]. exists []. by rewrite app_nil_r. }
  cbn [collect_snippets fmap list_fmap].
  destruct (ensureSentence candidate) as [|c sentence] eqn:Hs.
  { rewrite filter_cons_False by (by intros ?). by apply IH. }
  rewrite filter_cons_True by done.
  destruct (decide (toLowerCase (c :: sentence) ∈ seen)) as [Hin|Hnin].
  { destruct (IH seen snippets Hlen Hnd Hseen) as (H1 & H2 & more & H3 & H4).
    split; [done|]. split; [done|]. exists more. split; [done|].
    by apply sublist_cons. }
  assert (Hnd' : NoDup (toLowerCase <$> snippets ++ [c :: sentence])).
  { rewrite fmap_app. apply NoDup_app. split; [done|]. split.
    - intros k Hk Hk'. apply list_elem_of_fmap in Hk as (s & -> & Hs').
      simpl in Hk'. apply list_elem_of_singleton in Hk'.
      apply Hnin. rewrite <- Hk'. by apply Hseen.
    - simpl. apply NoDup_singleton. }
  destruct (decide (limit ≤ length (snippets ++ [c :: sentence]))) as [Hfull|Hroom].
  { rewrite length_app in *. simpl in *. split; [lia|]. split; [done|].
    exists [c :: sentence]. split; [done|]. apply sublist_skip, sublist_nil_l. }
  destruct (IH ({[toLowerCase (c :: sentence)]} ∪ seen) (snippets ++ [c :: sentence]))
    as (H1 & H2 & more & H3 & H4).
  - lia.
  - done.
  - intros s [Hs'|Hs']%elem_of_app.
    + apply elem_of_union_r. by apply Hseen.
    + apply list_elem_of_singleton in Hs' as ->.
      apply elem_of_union_l. by apply elem_of_singleton.
  - split; [done|]. split; [done|]. exists ((c :: sentence) :: more).
    split; [by rewrite H3, <- app_assoc|]. by apply sublist_skip.
Qed.

(** The result of the snippet source for any reply, for a limit of at
    least one: at most [limit] sentences, pairwise different once
    lower-cased, taken from the candidates in their order; each of them
    non-empty, whitespace-normalized, at most 221 code units long and ending
    a sentence. *)
Lemma queryDuckDuckGoSnippets_shape (w : World) query limit :
  1 ≤ limit →
  let out := (queryDuckDuckGoSnippets w query limit).1 in
  length out ≤ limit
  ∧ NoDup (toLowerCase <$> out)
  ∧ Forall (λ s, s ≠ [] ∧ whitespace_normalized s ∧ length s ≤ 221
                 ∧ ends_sentence s = true) out
  ∧ out `sublist_of`
      (ensureSentence <$>
         match duckduckgo w query with
         | HttpReply _ (DdgData data) => candidates_of data
         | _ => []
         end).
Proof.
  intros Hl. unfold queryDuckDuckGoSnippets, snippets_of_reply. simpl.
  assert (Hnil : ∀ l : list jsstring,
             length (@nil jsstring) ≤ limit
             ∧ NoDup (toLowerCase <$> @nil jsstring)
             ∧ Forall (λ s : jsstring, s ≠ [] ∧ whitespace_normalized s
                                       ∧ length s ≤ 221
                                       ∧ ends_sentence s = true) []
             ∧ [] `sublist_of` l).
  { intros l. split; [simpl; lia|]. split; [constructor|].
    split; [constructor|apply sublist_nil_l]. }
  destruct (duckduckgo w query) as [m|status body]; [apply Hnil|].
  destruct (negb (status_ok status)); [apply Hnil|].
  destruct body as [| | | |data]; try apply Hnil.
  destruct (collect_snippets_spec limit (candidates_of data) ∅ [])
    as (H1 & H2 & more & H3 & H4); [done|simpl; lia|constructor|set_solver|].
  split; [done|]. split; [done|]. rewrite H3. simpl. split.
  - apply Forall_forall. intros s Hs.
    assert (Hs' : s ∈ filter (λ s : jsstring, s ≠ [])
                         (ensureSentence <$> candidates_of data)).
    { by eapply elem_of_sublist. }
    apply list_elem_of_filter in Hs' as [Hne Hs'].
    apply list_elem_of_fmap in Hs' as (t & -> & _).
    split; [done|]. split; [apply ensureSentence_normalized|].
    by destruct (ensureSentence_shape t).
  - etrans; [done|]. apply sublist_filter.
Qed.
End SnippetFacts.

(** C7.  A candidate of exactly 220 code units without terminal
    punctuation is not clipped and receives a full stop: the sentence the
    snippet source returns for it has 221 code units. *)
Theorem ensureSentence_exceeds_220 :
  let candidate := replicate 220 97%N in
  let world :=
    example_world (NetworkError []) (λ _, HttpReply 200 (heading_only candidate))
                  (λ _, NetworkError []) (NetworkError []) (λ _, 0%Z) in
  length candidate = 220
  ∧ normalizeBlurb candidate = candidate
  ∧ ensureSentence candidate = candidate ++ [46%N]
  ∧ (queryDuckDuckGoSnippets world
       (WhyLocalsLove (js "Park") (js "Mesa") (js "AZ")) 1).1
    = [candidate ++ [46%N]]
  ∧ length (candidate ++ [46%N]) = 221.
Proof. vm_compute. repeat split; reflexivity. Qed.

(** ** Strategic Context Aggregator *)

Section StrategicFacts.
Context `{JsRuntime}.
Variable w : World.

Lemma sequence_fst {A} (ms : list (traced A)) : (sequence ms).1 = fst <$> ms.
Proof.
  induction ms as [|[a c] ms IH]; [done|].
  cbn [sequence]. unfold bind, ret. simpl. simpl in IH.
  destruct (sequence ms) as [l c']. simpl in *. by rewrite IH.
Qed.

Lemma push_snippets_spec cap bucket snippets :
  length bucket < cap → NoDup bucket →
  let out := push_snippets cap bucket snippets in
  length out ≤ cap ∧ NoDup out
  ∧ ∃ more, out = bucket ++ more ∧ more `sublist_of` snippets.
Proof.
  revert bucket. induction snippets as [|s rest IH]; intros bucket Hlen Hnd.
  { simpl. split; [lia|]. split; [done|]. exists []. by rewrite app_nil_r. }
  cbn [push_snippets]. destruct (decide (s ∈ bucket)) as [Hin|Hnin].
  { destruct (IH bucket Hlen Hnd) as (H1 & H2 & more & H3 & H4).
    split; [done|]. split; [done|]. exists more. split; [done|].
    by apply sublist_cons. }
  assert (Hnd' : NoDup (bucket ++ [s])).
  { apply NoDup_app. split; [done|]. split; [|apply NoDup_singleton].
    intros x Hx Hx'. apply list_elem_of_singleton in Hx' as ->. done. }
  destruct (decide (cap ≤ length (bucket ++ [s]))) as [Hfull|Hroom].
  { rewrite length_app in *. simpl in *. split; [lia|]. split; [done|].
    exists [s]. split; [done|]. apply sublist_skip, sublist_nil_l. }
  destruct (IH (bucket ++ [s])) as (H1 & H2 & more & H3 & H4); [lia|done|].
  split; [done|]. split; [done|]. exists (s :: more).
  split; [by rewrite H3, <- app_assoc|]. by apply sublist_skip.
Qed.

Lemma merge_responses_spec cap bucket (responses : list (list jsstring)) :
  length bucket < cap → NoDup bucket →
  let out := merge_responses cap bucket (Ok <$> responses) in
  length out ≤ cap ∧ NoDup out
  ∧ ∃ more, out = bucket ++ more ∧ more `sublist_of` concat responses.
Proof.
  revert bucket. induction responses as [|snippets rest IH];
    intros bucket Hlen Hnd.
  - simpl. split; [lia|]. split; [done|]. exists []. by rewrite app_nil_r.
  - rewrite fmap_cons. cbn [merge_responses concat].
    destruct (push_snippets_spec cap bucket snippets Hlen Hnd)
      as (H1 & H2 & more & H3 & H4).
    destruct (decide _) as [Hfull|Hroom].
    + split; [done|]. split; [done|]. exists more. split; [done|].
      by apply sublist_inserts_r.
    + destruct (IH (push_snippets cap bucket snippets))
        as (H5 & H6 & more' & H7 & H8); [lia|done|].
      split; [done|]. split; [done|]. exists (more ++ more').
      split; [by rewrite H7, H3, <- app_assoc|]. by apply sublist_app.
Qed.

Lemma assign_entries_Some pairs b :
  ∃ b', assign_entries (Some <$> pairs) b = Ok b'
        ∧ (∀ k, is_Some (b !! k) → is_Some (b' !! k))
        ∧ (NoDup pairs.*1 → ∀ k v, (k, v) ∈ pairs → b' !! k = Some v)
        ∧ (∀ k, k ∉ pairs.*1 → b' !! k = b !! k).
Proof.
  revert b. induction pairs as [|[k0 v0] pairs IH]; intros b.
  { exists b. split; [done|]. split; [done|]. split; [|done].
    intros _ k v Hin. by apply elem_of_nil in Hin. }
  destruct (IH (<[k0 := v0]> b)) as (b' & Hb' & Hsome & Hlook & Hother).
  exists b'. split; [done|]. split; [|split].
  - intros k Hk. apply Hsome. destruct (decide (k0 = k)) as [->|Hne].
    + rewrite lookup_insert_eq. eauto.
    + by rewrite lookup_insert_ne.
  - intros Hnd k v Hin. simpl in Hnd. apply NoDup_cons in Hnd as [Hk0 Hnd].
    apply elem_of_cons in Hin as [[= -> ->]|Hin].
    + rewrite Hother by done. by rewrite lookup_insert_eq.
    + by apply Hlook.
  - intros k Hk. simpl in Hk. apply not_elem_of_cons in Hk as [Hne Hk].
    rewrite Hother by done. by rewrite lookup_insert_ne.
Qed.

Lemma bucket_mapper_key city state zip config :
  (bucket_mapper w city state zip config).1.1 = key config.
Proof.
  unfold bucket_mapper, bind, ret. by simpl.
Qed.

Lemma bucket_mapper_capped city state zip config :
  1 ≤ default 3 (limit config) →
  let bucket := (bucket_mapper w city state zip config).1.2 in
  length bucket ≤ default 3 (limit config)
  ∧ NoDup bucket
  ∧ bucket `sublist_of`
      concat ((λ template,
                 (queryDuckDuckGoSnippets w
                    (StrategicQuery (key config) template city state zip)
                    (default 3 (limit config))).1) <$> templates config).
Proof.
  intros Hcap. unfold bucket_mapper. rewrite bind_fst. cbn [ret fst snd].
  rewrite sequence_fst.
  match goal with
  | |- context [merge_responses _ [] (Ok <$> ?rs)] =>
      destruct (merge_responses_spec (default 3 (limit config)) [] rs)
        as (H1 & H2 & more & H3 & H4); [simpl; lia|constructor|]
  end.
  split; [exact H1|]. split; [exact H2|]. rewrite H3.
  rewrite <- !list_fmap_compose in H4. exact H4.
Qed.

(** What the aggregator does guarantee, for every input: it settles with
    a record that has all eighteen keys; the bucket of each entry of the
    table holds at most the cap of the entry and no sentence twice, and its
    sentences come in the order of the phrasings and of their answers. *)
Lemma fetchStrategicContext_buckets city state zip :
  ∃ b, (fetchStrategicContext w city state zip).1 = Some (Ok b)
       ∧ (∀ k, is_Some (buckets b !! k))
       ∧ (∀ config, config ∈ STRATEGIC_QUERIES →
            ∃ l, buckets b !! key config = Some l
                 ∧ length l ≤ default 3 (limit config) ∧ NoDup l
                 ∧ l `sublist_of`
                     concat ((λ template,
                                (queryDuckDuckGoSnippets w
                                   (StrategicQuery (key config) template
                                      (match city with [] => state | _ => city end)
                                      state zip)
                                   (default 3 (limit config))).1)
                               <$> templates config)).
Proof.
  assert (Hempty : ∀ k, buckets emptyStrategicBuckets !! k = Some []).
  { by intros []; vm_compute. }
  assert (Hcaps : Forall (λ config, 1 ≤ default 3 (limit config)) STRATEGIC_QUERIES).
  { repeat constructor; simpl; lia. }
  unfold fetchStrategicContext. destruct state as [|c state'].
  { exists emptyStrategicBuckets. split; [done|]. split.
    - intros k. rewrite Hempty. eauto.
    - intros config _. exists []. rewrite Hempty. split; [done|].
      split; [simpl; lia|]. split; [constructor|apply sublist_nil_l]. }
  set (state := c :: state'). set (city' := match city with [] => state | _ => city end).
  rewrite mapWithConcurrency_inorder_total by lia.
  unfold awaited, bind, ret. cbn [fst snd].
  set (pairs := (λ config, (bucket_mapper w city' state zip config).1)
                  <$> STRATEGIC_QUERIES).
  assert (Hentries :
    (λ slot : option (traced (ContextBucketKey * list jsstring)), fst <$> slot)
      <$> (Some <$> (bucket_mapper w city' state zip <$> STRATEGIC_QUERIES))
    = Some <$> pairs).
  { subst pairs. by rewrite <- !list_fmap_compose. }
  rewrite Hentries.
  assert (Hkeys : pairs.*1 = key <$> STRATEGIC_QUERIES).
  { subst pairs. rewrite <- list_fmap_compose. apply list_fmap_ext.
    intros i config _. apply bucket_mapper_key. }
  destruct (assign_entries_Some pairs (buckets emptyStrategicBuckets))
    as (b' & -> & Hsome & Hlook & _).
  eexists. split; [done|]. cbn [buckets]. split.
  - intros k. apply Hsome. rewrite Hempty. eauto.
  - intros config Hin. exists (bucket_mapper w city' state zip config).1.2. split.
    + apply Hlook.
      * rewrite Hkeys. apply (bool_decide_unpack _). by vm_compute.
      * subst pairs. apply list_elem_of_fmap. exists config. split; [|done].
        rewrite <- (bucket_mapper_key city' state zip config).
        by destruct (bucket_mapper w city' state zip config).1.
    + apply bucket_mapper_capped. rewrite Forall_forall in Hcaps. by apply Hcaps.
Qed.
End StrategicFacts.

(** C1.  When two phrasings of one bucket are answered with the same
    sentence in different case, the aggregator keeps both: the bucket holds
    two sentences that are equal once lower-cased. *)
Theorem bucket_keeps_case_variants :
  ∃ b, (fetchStrategicContext case_variant_world
          (js "Scottsdale") (js "AZ") (js "85260")).1 = Some (Ok b)
       ∧ buckets b !! state_identity = Some [js "Arizona."; js "ARIZONA."]
       ∧ @toLowerCase basic_latin (js "Arizona.")
         = @toLowerCase basic_latin (js "ARIZONA.").
Proof. eexists. split; [by vm_compute|]. split; by vm_compute. Qed.

(** ** Place Source *)

Section PlaceFacts.
Context `{JsRuntime}.
Variable w : World.


Lemma place_lists_Some (lists : list (list LocalPlace)) :
  place_lists (Some <$> lists) = Ok lists.
Proof.
  induction lists as [|l lists IH]; [done|].
  rewrite fmap_cons. cbn [place_lists]. by rewrite IH.
Qed.

(** The place source settles for every world with the merge of what the
    ten category queries found, in the order of the queries. *)
Lemma fetchLocalPlaces_unfold latitude longitude per_query :
  (fetchLocalPlaces w (Some latitude) (Some longitude) per_query).1
  = Some (Ok (merge_places
                (concat ((λ entry, (category_mapper w latitude longitude
                                      per_query entry).1) <$> place_queries))
                ∅ [])).
Proof.
  unfold fetchLocalPlaces.
  rewrite mapWithConcurrency_inorder_total by lia.
  unfold awaited, bind, ret. cbn [fst snd].
  rewrite <- !list_fmap_compose.
  rewrite (list_fmap_compose
             (λ entry, (category_mapper w latitude longitude per_query entry).1)
             Some).
  by rewrite place_lists_Some.
Qed.


End PlaceFacts.



(** ** Geo Resolver *)


Lemma validateZip_not_empty zip_param :
  validateZip zip_param = true → bool_decide (zip_param ≠ []) = true.
Proof.
  unfold validateZip. intros [Hlen _]%andb_prop.
  apply bool_decide_eq_true in Hlen. apply bool_decide_eq_true.
  by destruct zip_param.
Qed.

Section GeoFacts.
Context `{JsRuntime}.
Variable w : World.

Lemma lookupZip_fst zip_param :
  (lookupZip w zip_param).1 =
  match zippopotam w zip_param with
  | NetworkError message => Throw message
  | HttpReply status body =>
      if (status =? 404)%N then Ok None
      else if negb (status_ok status)
      then Throw (js "Zippopotam lookup failed with status " ++ js_of_N status)
      else
        match body with
        | ZipNotJson message => Throw message
        | ZipJson data =>
            match default [] (places data) with
            | [] => Ok None
            | first :: _ =>
                Ok (Some
                  {| zip := default zip_param (post_code data);
                     city := default [] ((zip_place <$> first) ≫= place_name);
                     state :=
                       default []
                         (match (zip_place <$> first) ≫= state_abbreviation with
                          | Some s => Some s
                          | None => (zip_place <$> first) ≫= state_name
                          end);
                     latitude := first ≫= zip_latitude;
                     longitude := first ≫= zip_longitude |})
            end
        end
  end.
Proof. reflexivity. Qed.

Lemma GET_miss s zip_param :
  validateZip zip_param = true →
  cache_get w s (clock s) zip_param = None →
  GET w s zip_param = build w s (clock s) zip_param.
Proof.
  intros Hv Hmiss. unfold GET.
  rewrite (validateZip_not_empty _ Hv), Hv, Hmiss. done.
Qed.

Lemma build_not_found s now zip_param :
  geo_deadline_fires w = false →
  (lookupZip w zip_param).1 = Ok None →
  (build w s now zip_param).1.1
  = JsonDetail 404 (js "ZIP " ++ zip_param ++ js " not found.").
Proof.
  intros Hd Hgeo. unfold build. rewrite bind_fst, Hgeo.
  unfold withTimeout. by rewrite Hd.
Qed.
End GeoFacts.

(** C5 (as amended).  The resolver yields the not-found outcome exactly
    when the geocoding endpoint answers 404, or answers with a success
    status and a JSON payload whose [places] is missing, not an array or
    empty; any other non-success status, a body that is not JSON and a
    transport error are failures.  Unless the 8 s timer fires first, the
    not-found outcome is answered with status 404 and a detail that
    contains the ZIP. *)
Theorem lookupZip_not_found `{JsRuntime} (w : World) (zip_param : jsstring) :
  ((lookupZip w zip_param).1 = Ok None ↔
   ∃ status body,
     zippopotam w zip_param = HttpReply status body
     ∧ (status = 404%N
        ∨ (status_ok status = true
           ∧ ∃ data, body = ZipJson data ∧ default [] (places data) = [])))
  ∧ (∀ status body,
       zippopotam w zip_param = HttpReply status body →
       status ≠ 404%N → status_ok status = false →
       (lookupZip w zip_param).1
       = Throw (js "Zippopotam lookup failed with status " ++ js_of_N status))
  ∧ (∀ status message,
       zippopotam w zip_param = HttpReply status (ZipNotJson message) →
       status_ok status = true →
       (lookupZip w zip_param).1 = Throw message)
  ∧ (∀ message,
       zippopotam w zip_param = NetworkError message →
       (lookupZip w zip_param).1 = Throw message)
  ∧ (∀ s,
       validateZip zip_param = true →
       cache_get w s (clock s) zip_param = None →
       geo_deadline_fires w = false →
       (lookupZip w zip_param).1 = Ok None →
       (GET w s zip_param).1.1
       = JsonDetail 404 (js "ZIP " ++ zip_param ++ js " not found.")).
Proof.
  rewrite lookupZip_fst. repeat split.
  - destruct (zippopotam w zip_param) as [m|status body]; [done|].
    intros Hnone. exists status, body. split; [done|].
    destruct (N.eqb_spec status 404) as [->|Hne]; [by left|]. right.
    destruct (status_ok status); [|done]. simpl in Hnone. split; [done|].
    destruct body as [m|data]; [done|]. exists data. split; [done|].
    by destruct (default [] (places data)).
  - intros (status & body & -> & [->|(Hok & data & -> & Hp)]); [done|].
    destruct (N.eqb_spec status 404) as [->|Hne]; [done|].
    rewrite Hok. simpl. by rewrite Hp.
  - intros status body -> Hne Hok.
    destruct (N.eqb_spec status 404) as [->|_]; [done|]. by rewrite Hok.
  - intros status message -> Hok.
    destruct (N.eqb_spec status 404) as [->|_]; [done|]. by rewrite Hok.
  - by intros message ->.
  - intros s Hv Hmiss Hd Hgeo. rewrite GET_miss by done.
    apply build_not_found; [done|]. by rewrite lookupZip_fst.
Qed.

Lemma lookupZip_not_found_witness :
  (GET no_places_world {| cache := ∅; clock := 0 |} (js "00000")).1.1
  = JsonDetail 404 (js "ZIP 00000 not found.").
Proof.
  destruct (@lookupZip_not_found basic_latin no_places_world (js "00000"))
    as (Hiff & _ & _ & _ & Hget).
  apply (Hget {| cache := ∅; clock := 0 |});
    [reflexivity|reflexivity|reflexivity|].
  apply Hiff. exists 200%N, (ZipJson {| post_code := None; places := None |}).
  split; [reflexivity|]. right. split; [reflexivity|].
  eexists. split; reflexivity.
Defined.

(** C5, as the specification words it, fails when the endpoint answers 200
    with a payload that has no places: the status is not 404, the payload is
    not the expected one, and yet the outcome is not-found, answered 404. *)
Lemma geo_not_found_on_200 :
  zippopotam no_places_world (js "00000")
  = HttpReply 200 (ZipJson {| post_code := None; places := None |})
  ∧ (lookupZip no_places_world (js "00000")).1 = Ok None
  ∧ (GET no_places_world {| cache := ∅; clock := 0 |} (js "00000")).1.1
    = JsonDetail 404 (js "ZIP 00000 not found.")
  ∧ ¬ (∀ (w : @World basic_latin) zip_param,
         (lookupZip w zip_param).1 = Ok None ↔
         ∃ body, zippopotam w zip_param = HttpReply 404 body).
Proof.
  split; [reflexivity|]. split; [reflexivity|]. split; [by vm_compute|].
  intros Hclaim.
  destruct (Hclaim no_places_world (js "00000")) as [Hto _].
  destruct (Hto eq_refl) as [body Hbody]. discriminate Hbody.
Qed.

(** ** Failure isolation *)

Section IsolationFacts.
Context `{JsRuntime}.
Variable w : World.

Lemma queryDuckDuckGoSnippets_failed query limit :
  failed_search (duckduckgo w query) →
  (queryDuckDuckGoSnippets w query limit).1 = [].
Proof.
  unfold queryDuckDuckGoSnippets, snippets_of_reply, failed_search.
  rewrite bind_fst. simpl.
  destruct (duckduckgo w query) as [m|status body]; [done|].
  destruct body; try (by destruct (negb (status_ok status))).
  by intros ->.
Qed.

Lemma category_mapper_failed latitude longitude per_query entry :
  failed_place_query (nominatim w entry.1 latitude longitude per_query) →
  (category_mapper w latitude longitude per_query entry).1 = [].
Proof.
  destruct entry as [query label].
  unfold category_mapper, places_of_reply, failed_place_query.
  rewrite bind_fst. simpl.
  destruct (nominatim w query latitude longitude per_query) as [m|status body];
    [done|].
  destruct body; try (by destruct (negb (status_ok status))).
  by intros ->.
Qed.

Lemma merge_responses_nothing cap (responses : list (list jsstring)) :
  Forall (λ r, r = []) responses →
  merge_responses cap [] (Ok <$> responses) = [].
Proof.
  induction 1 as [|r responses -> _ IH]; [done|].
  rewrite fmap_cons. cbn [merge_responses push_snippets].
  by destruct (decide _).
Qed.

Lemma bucket_mapper_nothing city state zip config :
  (∀ query, failed_search (duckduckgo w query)) →
  (bucket_mapper w city state zip config).1 = (key config, []).
Proof.
  intros Hfail. unfold bucket_mapper. rewrite bind_fst. cbn [ret fst].
  f_equal. apply merge_responses_nothing. rewrite sequence_fst.
  apply Forall_fmap, Forall_fmap, Forall_forall. intros template _. simpl.
  by apply queryDuckDuckGoSnippets_failed.
Qed.

Lemma fetchStrategicContext_nothing city state zip :
  (∀ query, failed_search (duckduckgo w query)) →
  (fetchStrategicContext w city state zip).1 = Some (Ok emptyStrategicBuckets).
Proof.
  intros Hfail. unfold fetchStrategicContext.
  destruct state as [|c state']; [done|].
  set (state := c :: state').
  set (city' := match city with [] => state | _ => city end).
  rewrite mapWithConcurrency_inorder_total by lia.
  unfold awaited. rewrite bind_fst. cbn [ret fst].
  rewrite <- !list_fmap_compose.
  rewrite (list_fmap_ext _ (λ config, Some (key config, [])) STRATEGIC_QUERIES).
  - by vm_compute.
  - intros i config _.
    change (Some (bucket_mapper w city' state zip config).1
            = Some (key config, [])).
    by rewrite bucket_mapper_nothing.
Qed.

Lemma fetchLocalPlaces_nothing latitude longitude per_query :
  (∀ query la lo n, failed_place_query (nominatim w query la lo n)) →
  (fetchLocalPlaces w latitude longitude per_query).1 = Some (Ok []).
Proof.
  intros Hfail. destruct latitude as [la|], longitude as [lo|]; try done.
  rewrite fetchLocalPlaces_unfold.
  rewrite (list_fmap_ext _ (λ _, []) place_queries).
  - done.
  - intros i entry _. by apply category_mapper_failed.
Qed.
End IsolationFacts.

(** ** Response Cache and Orchestrator *)

Section CacheFacts.
Context `{JsRuntime}.
Variable w : World.

Lemma cache_get_Some s now zip_param p :
  cache_get w s now zip_param = Some p ↔
  ∃ entry, cache s !! zip_param = Some entry ∧ payload entry = p
           ∧ (now - timestamp entry < CACHE_TTL_MS w)%Z.
Proof.
  unfold cache_get. destruct (cache s !! zip_param) as [entry|].
  - destruct (Z.ltb_spec (now - timestamp entry) (CACHE_TTL_MS w)) as [Hlt|Hge].
    + split.
      * intros [= <-]. by exists entry.
      * intros (e & [= <-] & <- & _). done.
    + split; [done|]. intros (e & [= <-] & _ & Hlt). lia.
  - split; [done|]. by intros (e & ? & _).
Qed.

(** A run of the pipeline that answers 200 has written its payload under
    the requested ZIP with the time at which the request began. *)
Lemma build_Json s now zip_param p s1 :
  (build w s now zip_param).1 = (Json p, s1) →
  cache s1 = <[zip_param := {| timestamp := now; payload := p |}]> (cache s)
  ∧ clock s1 = (clock s + pipeline_time w)%Z.
Proof.
  unfold build. rewrite bind_fst.
  destruct (withTimeout _ _ _) as [[geo|]|message]; [|done|done].
  repeat (rewrite bind_fst; cbn [fst]).
  destruct (callGrok w _).1 as [synthesis|message]; [|done].
  cbn [ret fst]. intros [= <- <-]. split; [done|].
  unfold pipeline_time. simpl. lia.
Qed.

Lemma GET_Json_valid s zip_param p s1 calls :
  GET w s zip_param = ((Json p, s1), calls) → validateZip zip_param = true.
Proof.
  unfold GET. destruct (validateZip zip_param); [done|].
  rewrite andb_false_r. done.
Qed.
End CacheFacts.

Section OrchestratorFacts.
Context `{JsRuntime}.
Variable w : World.

Lemma or_else_same {A} (fires : bool) (a : A) message :
  or_else (withTimeout fires (Some (Ok a)) message) a = a.
Proof. by destruct fires. Qed.

(** With every search call failing, the handler goes on to the synthesis
    with the empty context. *)
Lemma build_thin s now zip_param geo :
  geo_deadline_fires w = false →
  (lookupZip w zip_param).1 = Ok (Some geo) →
  (∀ query, failed_search (duckduckgo w query)) →
  (∀ query la lo n, failed_place_query (nominatim w query la lo n)) →
  (build w s now zip_param).1.1 =
  match (callGrok w
           {| location :=
                (zip geo, city geo, state geo,
                 match latitude geo, longitude geo with
                 | Some la, Some lo => Some (la, lo)
                 | _, _ => None
                 end);
              strategic_context := emptyStrategicBuckets;
              anchor_spots := [] |}).1 with
  | Throw message => failure message
  | Ok synthesis =>
      Json {| payload_zip := zip geo;
              payload_city := city geo;
              payload_state := state geo;
              summary_card :=
                {| local_lifestyle_hook := [];
                   equity_or_payment_hook := [];
                   intent_probe := [] |};
              knowledge_brief := knowledge synthesis;
              grok_anchors := anchors synthesis;
              raw_strategic_context := emptyStrategicBuckets;
              raw_local_places := [] |}
  end.
Proof.
  intros Hd Hgeo Hddg Hosm. unfold build. rewrite bind_fst, Hgeo.
  unfold withTimeout at 1. rewrite Hd.
  repeat (rewrite bind_fst; cbn [fst]).
  rewrite fetchStrategicContext_nothing, fetchLocalPlaces_nothing by done.
  rewrite !or_else_same. cbn [enrichLocalPlaces imap sequence ret fst take].
  by destruct (callGrok w _).1.
Qed.
End OrchestratorFacts.

(** C8.  A search call that meets a transport error, a non-success status
    or an unusable body gives the empty list.  The place source always
    settles with the merge of what the ten category queries gave, a failing
    query giving the empty list; the aggregator always settles with a
    context.  When every search call fails the context is the empty one,
    there are no places, and the handler answers what the synthesis makes
    of that empty context. *)
Theorem search_failures_isolated `{JsRuntime} (w : World) :
  (∀ query limit,
     failed_search (duckduckgo w query) →
     (queryDuckDuckGoSnippets w query limit).1 = [])
  ∧ (∀ latitude longitude per_query entry,
       failed_place_query (nominatim w entry.1 latitude longitude per_query) →
       (category_mapper w latitude longitude per_query entry).1 = [])
  ∧ (∀ latitude longitude per_query,
       (fetchLocalPlaces w (Some latitude) (Some longitude) per_query).1
       = Some (Ok (merge_places
                     (concat ((λ entry, (category_mapper w latitude longitude
                                           per_query entry).1) <$> place_queries))
                     ∅ [])))
  ∧ (∀ city state zip,
       ∃ b, (fetchStrategicContext w city state zip).1 = Some (Ok b))
  ∧ ((∀ query, failed_search (duckduckgo w query)) →
     (∀ query la lo n, failed_place_query (nominatim w query la lo n)) →
     (∀ city state zip,
        (fetchStrategicContext w city state zip).1
        = Some (Ok emptyStrategicBuckets))
     ∧ (∀ latitude longitude per_query,
          (fetchLocalPlaces w latitude longitude per_query).1 = Some (Ok []))
     ∧ (∀ s zip_param geo,
          validateZip zip_param = true →
          cache_get w s (clock s) zip_param = None →
          geo_deadline_fires w = false →
          (lookupZip w zip_param).1 = Ok (Some geo) →
          (GET w s zip_param).1.1 =
          match (callGrok w
                   {| location :=
                        (zip geo, city geo, state geo,
                         match latitude geo, longitude geo with
                         | Some la, Some lo => Some (la, lo)
                         | _, _ => None
                         end);
                      strategic_context := emptyStrategicBuckets;
                      anchor_spots := [] |}).1 with
          | Throw message => failure message
          | Ok synthesis =>
              Json {| payload_zip := zip geo;
                      payload_city := city geo;
                      payload_state := state geo;
                      summary_card :=
                        {| local_lifestyle_hook := [];
                           equity_or_payment_hook := [];
                           intent_probe := [] |};
                      knowledge_brief := knowledge synthesis;
                      grok_anchors := anchors synthesis;
                      raw_strategic_context := emptyStrategicBuckets;
                      raw_local_places := [] |}
          end)).
Proof.
  split; [|split; [|split; [|split]]].
  - intros query limit. apply queryDuckDuckGoSnippets_failed.
  - intros latitude longitude per_query entry. apply category_mapper_failed.
  - intros latitude longitude per_query. apply fetchLocalPlaces_unfold.
  - intros city state zip.
    destruct (fetchStrategicContext_buckets w city state zip) as (b & Hb & _).
    by exists b.
  - intros Hddg Hosm. split; [|split].
    + intros city state zip. by apply fetchStrategicContext_nothing.
    + intros latitude longitude per_query. by apply fetchLocalPlaces_nothing.
    + intros s zip_param geo Hv Hmiss Hd Hgeo. rewrite GET_miss by done.
      by apply build_thin.
Qed.

Lemma search_failures_isolated_witness :
  (queryDuckDuckGoSnippets thin_world
     (WhyLocalsLove (js "Papago Park") (js "Scottsdale") (js "AZ")) 1).1 = []
  ∧ (fetchStrategicContext thin_world (js "Scottsdale") (js "AZ") (js "85260")).1
    = Some (Ok (@emptyStrategicBuckets))
  ∧ ∃ p, (GET thin_world {| cache := ∅; clock := 0 |} (js "85260")).1.1 = Json p
         ∧ raw_strategic_context p = emptyStrategicBuckets
         ∧ raw_local_places p = [].
Proof.
  destruct (@search_failures_isolated basic_latin thin_world)
    as (Hsnip & _ & _ & _ & Hall).
  destruct Hall as (Hctx & _ & Hget); [by intros query|by intros query la lo n|].
  split; [by apply Hsnip|]. split; [apply Hctx|].
  eexists. split; [|split].
  - rewrite (Hget {| cache := ∅; clock := 0 |} (js "85260")
               {| zip := js "85260"; city := js "Scottsdale"; state := js "AZ";
                  latitude := None; longitude := None |});
      [|reflexivity|reflexivity|reflexivity|reflexivity].
    vm_compute. reflexivity.
  - reflexivity.
  - reflexivity.
Defined.

Lemma response_eta {A B C} (x : A * B * C) (a : A) :
  x.1.1 = a → x = ((a, x.1.2), x.2).
Proof. destruct x as [[a' b] c]. simpl. by intros ->. Qed.

(** C4.  The cache gives a payload back exactly when an entry is stored
    under the ZIP whose timestamp is less than the TTL before now; storing
    replaces whatever was there and touches no other ZIP.  Hence, after a
    request that ran the pipeline and answered 200, a request for the same
    ZIP that starts less than the TTL after the first one began and finds the
    cache as the first one left it is answered with the same payload and
    issues no upstream call. *)
Theorem cache_idempotence `{JsRuntime} (w w' : World) (s s1 s2 : Server)
    (zip_param : jsstring) (p : ZipRapportResponse) (calls : list upstream_call) :
  (∀ now,
     cache_get w s now zip_param = Some p ↔
     ∃ entry, cache s !! zip_param = Some entry ∧ payload entry = p
              ∧ (now - timestamp entry < CACHE_TTL_MS w)%Z)
  ∧ (∀ entry,
       cache_set s zip_param entry !! zip_param = Some entry
       ∧ ∀ other, other ≠ zip_param →
                  cache_set s zip_param entry !! other = cache s !! other)
  ∧ (cache_get w s (clock s) zip_param = None →
     GET w s zip_param = ((Json p, s1), calls) →
     CACHE_TTL_SECONDS w' = CACHE_TTL_SECONDS w →
     cache s2 = cache s1 →
     (clock s2 - clock s < CACHE_TTL_MS w)%Z →
     GET w' s2 zip_param = ((Json p, s2), [])).
Proof.
  split; [|split].
  - intros now. apply cache_get_Some.
  - intros entry. unfold cache_set. split; [apply lookup_insert_eq|].
    intros other Hne. by apply lookup_insert_ne.
  - intros Hmiss HGET Httl Hcache Hfresh.
    pose proof (GET_Json_valid w s zip_param p s1 calls HGET) as Hv.
    rewrite GET_miss in HGET by done.
    destruct (build_Json w s (clock s) zip_param p s1) as [Hc _].
    { by rewrite HGET. }
    assert (Hhit : cache_get w' s2 (clock s2) zip_param = Some p).
    { apply cache_get_Some. eexists. rewrite Hcache, Hc, lookup_insert_eq.
      split; [done|]. split; [done|]. simpl.
      unfold CACHE_TTL_MS in *. by rewrite Httl. }
    unfold GET. by rewrite (validateZip_not_empty _ Hv), Hv, Hhit.
Qed.

Lemma cache_idempotence_witness :
  (GET slow_world {| cache := ∅; clock := 5000 |} (js "85260")).1.1
  = Json brief_payload
  ∧ GET slow_world
        {| cache := cache (GET slow_world {| cache := ∅; clock := 5000 |}
                               (js "85260")).1.2;
           clock := 9500 |} (js "85260")
    = ((Json brief_payload,
        {| cache := cache (GET slow_world {| cache := ∅; clock := 5000 |}
                               (js "85260")).1.2;
           clock := 9500 |}), []).
Proof.
  assert (Hfirst : (GET slow_world {| cache := ∅; clock := 5000 |} (js "85260")).1.1
                   = Json brief_payload) by (vm_compute; reflexivity).
  split; [exact Hfirst|].
  destruct (@cache_idempotence basic_latin slow_world slow_world
              {| cache := ∅; clock := 5000 |}
              (GET slow_world {| cache := ∅; clock := 5000 |} (js "85260")).1.2
              {| cache := cache (GET slow_world {| cache := ∅; clock := 5000 |}
                                     (js "85260")).1.2;
                 clock := 9500 |}
              (js "85260") brief_payload
              (GET slow_world {| cache := ∅; clock := 5000 |} (js "85260")).2)
    as (_ & _ & Hidem).
  apply Hidem.
  - reflexivity.
  - by apply response_eta.
  - reflexivity.
  - reflexivity.
  - reflexivity.
Defined.

(** C10.  The entry a successful run of the pipeline stores carries the
    clock value read when the request began, while the write happens
    [pipeline_time] later.  A later request finds the entry fresh exactly
    when it starts less than the TTL after the first request began, that is
    less than the TTL minus the pipeline's duration after the entry was
    written. *)
Theorem cache_timestamp_is_request_start `{JsRuntime} (w : World)
    (s s1 : Server) (zip_param : jsstring) (p : ZipRapportResponse)
    (calls : list upstream_call) :
  cache_get w s (clock s) zip_param = None →
  GET w s zip_param = ((Json p, s1), calls) →
  cache s1 !! zip_param = Some {| timestamp := clock s; payload := p |}
  ∧ clock s1 = (clock s + pipeline_time w)%Z
  ∧ ∀ s2, cache s2 = cache s1 →
          (cache_get w s2 (clock s2) zip_param = Some p ↔
           (clock s2 - clock s < CACHE_TTL_MS w)%Z)
          ∧ (cache_get w s2 (clock s2) zip_param = Some p ↔
             (clock s2 - clock s1 < CACHE_TTL_MS w - pipeline_time w)%Z).
Proof.
  intros Hmiss HGET.
  pose proof (GET_Json_valid w s zip_param p s1 calls HGET) as Hv.
  rewrite GET_miss in HGET by done.
  destruct (build_Json w s (clock s) zip_param p s1) as [Hc Hclock].
  { by rewrite HGET. }
  split; [by rewrite Hc, lookup_insert_eq|]. split; [done|].
  intros s2 Hcache.
  assert (Hfresh : cache_get w s2 (clock s2) zip_param = Some p ↔
                   (clock s2 - clock s < CACHE_TTL_MS w)%Z).
  { rewrite cache_get_Some. rewrite Hcache, Hc, lookup_insert_eq. split.
    - by intros (entry & [= <-] & _ & Hlt).
    - intros Hlt. eexists. split; [done|]. by split. }
  split; [done|]. rewrite Hfresh, Hclock. lia.
Qed.

Lemma cache_timestamp_is_request_start_witness :
  (GET slow_world {| cache := ∅; clock := 5000 |} (js "85260")).1.1
  = Json brief_payload
  ∧ cache (GET slow_world {| cache := ∅; clock := 5000 |} (js "85260")).1.2
    !! js "85260"
    = Some {| timestamp := 5000; payload := brief_payload |}
  ∧ clock (GET slow_world {| cache := ∅; clock := 5000 |} (js "85260")).1.2
    = (5000 + 4000)%Z.
Proof.
  assert (Hfirst : (GET slow_world {| cache := ∅; clock := 5000 |} (js "85260")).1.1
                   = Json brief_payload) by (vm_compute; reflexivity).
  split; [exact Hfirst|].
  destruct (@cache_timestamp_is_request_start basic_latin slow_world
              {| cache := ∅; clock := 5000 |}
              (GET slow_world {| cache := ∅; clock := 5000 |} (js "85260")).1.2
              (js "85260") brief_payload
              (GET slow_world {| cache := ∅; clock := 5000 |} (js "85260")).2)
    as (Hentry & Hclock & _); [reflexivity|by apply response_eta|].
  split; [exact Hentry|exact Hclock].
Defined.
